(** * Shallow embedding of butler's wharf operations (src/wharf_ops.go)

    [doDiff], [doApply], [doSign] and [doVerify] of wharf_ops.go are glue
    around the wharf delta engine (packages pwr, sync, tlc, wire).  The
    glue is translated from the Go source; the engine itself lives outside
    this repository's sources and is modelled from the specification
    (every such definition says so in its doc comment). *)

From Stdlib Require Import String Ascii Strings.Byte NArith ZArith Lia Bool List.
Import ListNotations.

(* ------------------------------------------------------------------ *)
(** ** Bytes and fixed-width little-endian integers *)

Definition bytes := list byte.

Definition byte_of_N (n : N) : byte :=
  match Byte.of_N (n mod 256) with
  | Some b => b
  | None => Byte.x00
  end.

(** [k]-byte little-endian encoding of an unsigned integer. *)
Fixpoint put_uint (k : nat) (n : N) : bytes :=
  match k with
  | O => []
  | S k' => byte_of_N n :: put_uint k' (n / 256)
  end.

Fixpoint get_uint (k : nat) (l : bytes) : option (N * bytes) :=
  match k with
  | O => Some (0%N, l)
  | S k' =>
      match l with
      | [] => None
      | b :: l' =>
          match get_uint k' l' with
          | Some (m, r) => Some ((Byte.to_N b + 256 * m)%N, r)
          | None => None
          end
      end
  end.

(* ------------------------------------------------------------------ *)
(** ** Go's [path.Clean]

    Translated from the Go standard library (path/path.go).  The Go loop
    walks an index [r] over [path] and writes into a lazy buffer [out] of
    length [out.w]; here the unread part of [path] is the list [p] and the
    buffer is kept reversed, so [length out] is [out.w] and the head of
    [out] is the last byte written. *)

Definition slash : ascii := "/"%char.
Definition dot : ascii := "."%char.

Definition is_slash (c : ascii) : bool := Ascii.eqb c slash.
Definition is_dot (c : ascii) : bool := Ascii.eqb c dot.

(** [r+1 == n || path[r+1] == '/'], seen from the unread suffix. *)
Definition at_sep (p : list ascii) : bool :=
  match p with
  | [] => true
  | c :: _ => is_slash c
  end.

(** [out.w--; for out.w > dotdot && out.index(out.w) != '/' { out.w-- }] *)
Fixpoint clean_backtrack (out : list ascii) (dotdot : nat) : list ascii :=
  match out with
  | [] => []
  | c :: rest =>
      if (dotdot <? length rest) && negb (is_slash c)
      then clean_backtrack rest dotdot
      else rest
  end.

(** [for ; r < n && path[r] != '/'; r++ { out.append(path[r]) }] *)
Fixpoint copy_elem (p : list ascii) (out : list ascii) : list ascii * list ascii :=
  match p with
  | c :: p' => if is_slash c then (p, out) else copy_elem p' (c :: out)
  | [] => ([], out)
  end.

Fixpoint clean_loop (fuel : nat) (rooted : bool) (p : list ascii)
    (out : list ascii) (dotdot : nat) : list ascii :=
  match fuel with
  | O => out
  | S fuel' =>
      match p with
      | [] => out
      | c :: p1 =>
          if is_slash c then
            (* empty path element *)
            clean_loop fuel' rooted p1 out dotdot
          else if is_dot c && at_sep p1 then
            (* . element *)
            clean_loop fuel' rooted p1 out dotdot
          else
            match p1 with
            | c2 :: p2 =>
                if is_dot c && is_dot c2 && at_sep p2 then
                  (* .. element: remove to last / *)
                  if dotdot <? length out then
                    clean_loop fuel' rooted p2 (clean_backtrack out dotdot) dotdot
                  else if negb rooted then
                    (* cannot backtrack, but not rooted, so append .. element *)
                    let out1 := if 0 <? length out then slash :: out else out in
                    let out2 := dot :: dot :: out1 in
                    clean_loop fuel' rooted p2 out2 (length out2)
                  else clean_loop fuel' rooted p2 out dotdot
                else
                  let out1 :=
                    if (rooted && negb (length out =? 1))
                       || (negb rooted && negb (length out =? 0))
                    then slash :: out else out in
                  let (p', out2) := copy_elem p out1 in
                  clean_loop fuel' rooted p' out2 dotdot
            | [] =>
                let out1 :=
                  if (rooted && negb (length out =? 1))
                     || (negb rooted && negb (length out =? 0))
                  then slash :: out else out in
                let (p', out2) := copy_elem p out1 in
                clean_loop fuel' rooted p' out2 dotdot
            end
      end
  end.

(** [path.Clean] *)
Definition path_Clean (path : string) : string :=
  let p := list_ascii_of_string path in
  match p with
  | [] => "."
  | c :: p1 =>
      let rooted := is_slash c in
      let out :=
        if rooted then clean_loop (length p) rooted p1 [slash] 1
        else clean_loop (length p) rooted p [] 0 in
      match out with
      | [] => "."
      | _ => string_of_list_ascii (rev out)
      end
  end.

(** *** Path elements

    An element-level reading of [path.Clean], used to state its
    properties: the path is cut at its slashes, the pieces are processed
    left to right, and the kept elements are joined again.  The lemma
    [path_Clean_elems] below proves that [path_Clean] computes exactly
    this. *)

(** Path elements as [path.Clean] sees them: the pieces of a path between
    its slashes ("a//b/" has the pieces "a", "", "b" and ""). *)
Fixpoint split_elems (p : list ascii) : list (list ascii) :=
  match p with
  | [] => [[]]
  | c :: p' =>
      if is_slash c then [] :: split_elems p'
      else match split_elems p' with
           | e :: es => (c :: e) :: es
           | [] => [[c]]
           end
  end.

(** Elements joined by single slashes. *)
Fixpoint join_elems (es : list (list ascii)) : list ascii :=
  match es with
  | [] => []
  | [e] => e
  | e :: es' => e ++ slash :: join_elems es'
  end.

Definition dotdot : list ascii := [dot; dot].

(** An empty or "." element is dropped, ".." goes up, anything else is a name. *)
Inductive ElemKind := ESkip | EUp | EName.

Definition classify_elem (e : list ascii) : ElemKind :=
  match e with
  | [] => ESkip
  | [c] => if is_dot c then ESkip else EName
  | [c1; c2] => if is_dot c1 && is_dot c2 then EUp else EName
  | _ => EName
  end.

(** A name element: not empty, ".", or "..", and without a slash. *)
Definition name_elem (e : list ascii) : bool :=
  match classify_elem e with
  | EName => forallb (fun c => negb (is_slash c)) e
  | _ => false
  end.

(** The lexical processing of [path.Clean], element by element: the
    number of leading ".." elements kept and the names kept, last first. *)
Definition clean_step (rooted : bool) (s : nat * list (list ascii)) (e : list ascii)
    : nat * list (list ascii) :=
  let (ups, names) := s in
  match classify_elem e with
  | ESkip => s
  | EUp =>
      match names with
      | _ :: names' => (ups, names')
      | [] => if rooted then (ups, []) else (S ups, [])
      end
  | EName => (ups, e :: names)
  end.

Definition render_elems (rooted : bool) (s : nat * list (list ascii)) : list ascii :=
  let (ups, names) := s in
  if rooted then slash :: join_elems (rev names)
  else join_elems (repeat dotdot ups ++ rev names).

(** The first element of a path. *)
Definition head_elem (p : list ascii) : list ascii := hd [] (split_elems p).

(** Slash-free lists of characters. *)
Definition no_slash (e : list ascii) : bool := forallb (fun c => negb (is_slash c)) e.

(** The elements of the result of [path.Clean] for a state of the element model. *)
Definition clean_elems_of (rooted : bool) (ups : nat) (names : list (list ascii))
    : list (list ascii) :=
  if rooted then rev names else repeat dotdot ups ++ rev names.

(** The leading slash of a rooted result. *)
Definition clean_base (rooted : bool) : list ascii := if rooted then [slash] else [].

(** The buffer of [path.Clean] (reversed) for a state of the element model. *)
Definition clean_inv (rooted : bool) (ups : nat) (names : list (list ascii))
    (out : list ascii) (dd : nat) : Prop :=
  out = rev (render_elems rooted (ups, names))
  /\ dd = (if rooted then 1 else length (join_elems (repeat dotdot ups)))
  /\ (rooted = true -> ups = 0)
  /\ forallb name_elem names = true.

(* ------------------------------------------------------------------ *)
(** ** Data model (tlc, sync, pwr) *)

Inductive EntryKind := KFile | KDir | KSymlink.

(** A Container entry: path, kind, size (files only), symlink target
    (symlinks only).  Sizes, offsets and indices are Go [int64]/[uint64];
    they are [nat] here and bounded by the codec. *)
Record Entry := mkEntry {
  e_path : string;
  e_kind : EntryKind;
  e_size : nat;
  e_link : string
}.

Definition Container := list Entry.

(** A directory tree on disk, in the order of a deterministic walk. *)
Inductive DiskEntry :=
| DFile (path : string) (data : bytes)
| DDir (path : string)
| DSymlink (path : string) (dest : string).

Definition DiskTree := list DiskEntry.

(** Modelled from the spec: [tlc.Walk] (§3, Container Model), without
    the path filter; entry order is the walk order. *)
Definition entry_of (d : DiskEntry) : Entry :=
  match d with
  | DFile p data => mkEntry p KFile (length data) EmptyString
  | DDir p => mkEntry p KDir 0 EmptyString
  | DSymlink p dest => mkEntry p KSymlink 0 dest
  end.

Definition tlc_Walk (t : DiskTree) : Container := map entry_of t.

Definition is_file (e : Entry) : bool :=
  match e_kind e with KFile => true | _ => false end.

(** [Container.Size]: the sum of the sizes of all files. *)
Definition container_Size (c : Container) : nat :=
  fold_right (fun e acc => (if is_file e then e_size e else 0) + acc) 0 c.

(** The bytes of the files of a tree, indexed by file index. *)
Fixpoint tree_files (t : DiskTree) : list bytes :=
  match t with
  | [] => []
  | DFile _ data :: t' => data :: tree_files t'
  | _ :: t' => tree_files t'
  end.

Inductive CompressionAlgorithm := NONE | BROTLI | GZIP.

Record CompressionSettings := mkCompression {
  Algorithm : CompressionAlgorithm;
  Quality : Z                     (* int32 *)
}.

(** [sync.BlockHash] *)
Record BlockHash := mkBlockHash {
  FileIndex : nat;
  BlockIndex : nat;
  WeakHash : N;                   (* uint32 *)
  StrongHash : bytes
}.

(** A Signature: container, flattened per-file block hashes in container
    order, compression descriptor. *)
Record Signature := mkSignature {
  sig_container : Container;
  sig_hashes : list BlockHash;
  sig_compression : CompressionSettings
}.

(** Patch operations (§3). *)
Inductive Operation :=
| BlockCopy (fileIndex : nat) (offset : nat) (len : nat)
| Literal (payload : bytes) (decompressedLen : nat).

Record Patch := mkPatch {
  patch_compression : CompressionSettings;
  patch_container : Container;
  patch_ops : list (list Operation)     (* one list per source file *)
}.

Inductive Error :=
| IOError (path : string)
| FormatError
| CompressionError
| CorruptionError
| HashMismatch (firstBlock : nat) (mismatches : nat).

Inductive res (A : Type) :=
| Ok (a : A)
| Err (e : Error).
Arguments Ok {A} a.
Arguments Err {A} e.

Definition res_bind {A B} (m : res A) (k : A -> res B) : res B :=
  match m with
  | Ok a => k a
  | Err e => Err e
  end.

Notation "'let!' x ':=' m 'in' k" := (res_bind m (fun x => k))
  (at level 200, x name, m at level 100, k at level 200).

Fixpoint bytes_eqb (a b : bytes) : bool :=
  match a, b with
  | [], [] => true
  | x :: a', y :: b' => Byte.eqb x y && bytes_eqb a' b'
  | _, _ => false
  end.

(* ------------------------------------------------------------------ *)
(** ** Wire codec

    Modelled from the spec (§4.2, §6): the message layer of wharf's wire
    package.  The spec fixes the order of the records of a stream but not
    their bytes; here integers are little-endian of fixed width (uint64 for
    sizes, counts and offsets, uint32 for weak hashes, int32 for the
    compression quality) and byte strings are length-prefixed. *)

Definition put_nat (n : nat) : bytes := put_uint 8 (N.of_nat n).

Definition get_nat (l : bytes) : option (nat * bytes) :=
  match get_uint 8 l with
  | Some (n, r) => Some (N.to_nat n, r)
  | None => None
  end.

Definition put_bytes (b : bytes) : bytes := put_nat (length b) ++ b.

Definition get_bytes (l : bytes) : option (bytes * bytes) :=
  match get_nat l with
  | Some (n, r) => if n <=? length r then Some (firstn n r, skipn n r) else None
  | None => None
  end.

Definition put_string (s : string) : bytes := put_bytes (list_byte_of_string s).

Definition get_string (l : bytes) : option (string * bytes) :=
  match get_bytes l with
  | Some (b, r) => Some (string_of_list_byte b, r)
  | None => None
  end.

Definition kind_tag (k : EntryKind) : byte :=
  match k with KFile => x00 | KDir => x01 | KSymlink => x02 end.

Definition kind_of_tag (b : byte) : option EntryKind :=
  if Byte.eqb b x00 then Some KFile
  else if Byte.eqb b x01 then Some KDir
  else if Byte.eqb b x02 then Some KSymlink
  else None.

Definition put_entry (e : Entry) : bytes :=
  kind_tag (e_kind e) :: put_string (e_path e) ++ put_nat (e_size e)
    ++ put_string (e_link e).

Definition get_entry (l : bytes) : option (Entry * bytes) :=
  match l with
  | [] => None
  | t :: l1 =>
      match kind_of_tag t, get_string l1 with
      | Some k, Some (p, l2) =>
          match get_nat l2 with
          | Some (sz, l3) =>
              match get_string l3 with
              | Some (lk, l4) => Some (mkEntry p k sz lk, l4)
              | None => None
              end
          | None => None
          end
      | _, _ => None
      end
  end.

Fixpoint get_entries (n : nat) (l : bytes) : option (list Entry * bytes) :=
  match n with
  | O => Some ([], l)
  | S n' =>
      match get_entry l with
      | Some (e, l1) =>
          match get_entries n' l1 with
          | Some (es, l2) => Some (e :: es, l2)
          | None => None
          end
      | None => None
      end
  end.

(** The [tlc.Container] message. *)
Definition put_container (c : Container) : bytes :=
  put_nat (length c) ++ concat (map put_entry c).

Definition get_container (l : bytes) : option (Container * bytes) :=
  match get_nat l with
  | Some (n, l1) => get_entries n l1
  | None => None
  end.

Definition alg_tag (a : CompressionAlgorithm) : byte :=
  match a with NONE => x00 | BROTLI => x01 | GZIP => x02 end.

Definition alg_of_tag (b : byte) : option CompressionAlgorithm :=
  if Byte.eqb b x00 then Some NONE
  else if Byte.eqb b x01 then Some BROTLI
  else if Byte.eqb b x02 then Some GZIP
  else None.

(** Go's [int32(x)]: two's-complement wrap-around to 32 bits. *)
Definition to_int32 (z : Z) : Z := ((z + 2 ^ 31) mod 2 ^ 32 - 2 ^ 31)%Z.

Definition int32_of_uint32 (v : N) : Z :=
  if (v <? 2 ^ 31)%N then Z.of_N v else (Z.of_N v - 2 ^ 32)%Z.

(** The [SignatureHeader] / [PatchHeader] message: the compression
    descriptor. *)
Definition put_header (cs : CompressionSettings) : bytes :=
  alg_tag (Algorithm cs) :: put_uint 4 (Z.to_N (Quality cs mod 2 ^ 32)).

(** The raw header: algorithm tag and quality; the tag is interpreted by
    the reader, an unknown tag being an unsupported algorithm. *)
Definition get_header (l : bytes) : option ((byte * Z) * bytes) :=
  match l with
  | [] => None
  | t :: l1 =>
      match get_uint 4 l1 with
      | Some (q, l2) => Some ((t, int32_of_uint32 q), l2)
      | None => None
      end
  end.

(** The [pwr.BlockHash] message: weak and strong hash only. *)
Definition put_blockhash (h : BlockHash) : bytes :=
  put_uint 4 (WeakHash h) ++ put_bytes (StrongHash h).

Definition get_blockhash (l : bytes) : option ((N * bytes) * bytes) :=
  match get_uint 4 l with
  | Some (w, l1) =>
      match get_bytes l1 with
      | Some (s, l2) => Some ((w, s), l2)
      | None => None
      end
  | None => None
  end.

(** [BlockHash*] up to the end of the stream. *)
Fixpoint get_blockhashes (fuel : nat) (l : bytes) : option (list (N * bytes)) :=
  match l with
  | [] => Some []
  | _ :: _ =>
      match fuel with
      | O => None
      | S fuel' =>
          match get_blockhash l with
          | Some (h, l1) =>
              match get_blockhashes fuel' l1 with
              | Some hs => Some (h :: hs)
              | None => None
              end
          | None => None
          end
      end
  end.

Definition put_op (op : Operation) : bytes :=
  match op with
  | BlockCopy fi off len => x00 :: put_nat fi ++ put_nat off ++ put_nat len
  | Literal payload n => x01 :: put_bytes payload ++ put_nat n
  end.

Definition get_op (l : bytes) : option (Operation * bytes) :=
  match l with
  | [] => None
  | t :: l1 =>
      if Byte.eqb t x00 then
        match get_nat l1 with
        | Some (fi, l2) =>
            match get_nat l2 with
            | Some (off, l3) =>
                match get_nat l3 with
                | Some (len, l4) => Some (BlockCopy fi off len, l4)
                | None => None
                end
            | None => None
            end
        | None => None
        end
      else if Byte.eqb t x01 then
        match get_bytes l1 with
        | Some (payload, l2) =>
            match get_nat l2 with
            | Some (n, l3) => Some (Literal payload n, l3)
            | None => None
            end
        | None => None
        end
      else None
  end.

Fixpoint get_op_list (n : nat) (l : bytes) : option (list Operation * bytes) :=
  match n with
  | O => Some ([], l)
  | S n' =>
      match get_op l with
      | Some (op, l1) =>
          match get_op_list n' l1 with
          | Some (ops, l2) => Some (op :: ops, l2)
          | None => None
          end
      | None => None
      end
  end.

(** One file's operation list. *)
Definition put_ops (ops : list Operation) : bytes :=
  put_nat (length ops) ++ concat (map put_op ops).

Definition get_ops (l : bytes) : option (list Operation * bytes) :=
  match get_nat l with
  | Some (n, l1) => get_op_list n l1
  | None => None
  end.

Fixpoint get_ops_per_file (c : Container) (l : bytes)
    : option (list (list Operation) * bytes) :=
  match c with
  | [] => Some ([], l)
  | e :: c' =>
      if is_file e then
        match get_ops l with
        | Some (ops, l1) =>
            match get_ops_per_file c' l1 with
            | Some (rest, l2) => Some (ops :: rest, l2)
            | None => None
            end
        | None => None
        end
      else get_ops_per_file c' l
  end.

Definition PatchMagic : N := 267341568.          (* 0xFEF5F00 *)
Definition SignatureMagic : N := 267341569.      (* PatchMagic + 1 *)

(** [wire.WriteContext.WriteMagic]: an int32, little-endian. *)
Definition put_magic (m : N) : bytes := put_uint 4 m.

(** Modelled from the spec: [pwr.CompressionDefault()]. *)
Definition CompressionDefault : CompressionSettings := mkCompression BROTLI 1.

(* ------------------------------------------------------------------ *)
(** ** The process world: file system, console, I/O trace

    Go functions returning [error] run in a state-and-error monad over the
    world; [comm.Dief] (and [must] on an error) ends the process. *)

Inductive Node :=
| NDir (t : DiskTree)
| NFile (data : bytes).

Inductive Arg := AStr (s : string) | ANat (n : nat) | AErr (e : Error).

(** Console lines of [comm.Opf], [comm.Logf] and [comm.Dief]; the
    [comm.Statf] lines (humanized sizes and throughput) are not modelled. *)
Inductive Line :=
| LOp (fmt : string) (arg : string)
| LLog (e : Error)
| LDie (fmt : string) (args : list Arg).

(** File-system calls, in the order they are made. *)
Inductive Event :=
| EvLstat (p : string)
| EvWalk (p : string)
| EvOpen (p : string)
| EvCreate (p : string)
| EvTempDir (p : string)
| EvRemoveAll (p : string).

Record World := mkWorld {
  fs : list (string * Node);      (* keyed by cleaned path *)
  console : list Line;
  trace : list Event;
  tmpSeq : nat
}.

Inductive Outcome (A : Type) :=
| Done (a : A)
| Failed (e : Error)
| Died.
Arguments Done {A} a.
Arguments Failed {A} e.
Arguments Died {A}.

Definition M (A : Type) := World -> Outcome A * World.

Definition ret {A} (a : A) : M A := fun w => (Done a, w).

Definition bind {A B} (m : M A) (k : A -> M B) : M B :=
  fun w =>
    match m w with
    | (Done a, w1) => k a w1
    | (Failed e, w1) => (Failed e, w1)
    | (Died, w1) => (Died, w1)
    end.

Notation "x <- m ;; k" := (bind m (fun x => k))
  (at level 61, m at next level, right associativity).
Notation "m ;;; k" := (bind m (fun _ => k))
  (at level 61, right associativity).

Definition fail {A} (e : Error) : M A := fun w => (Failed e, w).

Definition lift {A} (r : res A) : M A :=
  match r with Ok a => ret a | Err e => fail e end.

Definition set_fs (f : list (string * Node)) (w : World) : World :=
  mkWorld f (console w) (trace w) (tmpSeq w).

Definition log_event (ev : Event) : M unit :=
  fun w => (Done tt, mkWorld (fs w) (console w) (trace w ++ [ev]) (tmpSeq w)).

Definition say (l : Line) : M unit :=
  fun w => (Done tt, mkWorld (fs w) (console w ++ [l]) (trace w) (tmpSeq w)).

(** [comm.Opf], [comm.Logf], [comm.Dief]. *)
Definition comm_Opf (fmt arg : string) : M unit := say (LOp fmt arg).
Definition comm_Logf (e : Error) : M unit := say (LLog e).
Definition comm_Dief {A} (fmt : string) (args : list Arg) : M A :=
  bind (say (LDie fmt args)) (fun _ w => (Died, w)).

Fixpoint fs_lookup (f : list (string * Node)) (p : string) : option Node :=
  match f with
  | [] => None
  | (k, n) :: f' => if String.eqb k (path_Clean p) then Some n else fs_lookup f' p
  end.

Fixpoint fs_remove (f : list (string * Node)) (p : string) : list (string * Node) :=
  match f with
  | [] => []
  | (k, n) :: f' =>
      if String.eqb k (path_Clean p) then fs_remove f' p else (k, n) :: fs_remove f' p
  end.

Definition fs_set (f : list (string * Node)) (p : string) (n : Node)
    : list (string * Node) :=
  (path_Clean p, n) :: fs_remove f p.

Definition get_node (p : string) : M (option Node) :=
  fun w => (Done (fs_lookup (fs w) p), w).

Definition put_node (p : string) (n : Node) : M unit :=
  fun w => (Done tt, set_fs (fs_set (fs w) p n) w).

(** [os.Lstat(p).IsDir()] *)
Definition os_Lstat_IsDir (p : string) : M bool :=
  log_event (EvLstat p) ;;;
  n <- get_node p ;;
  match n with
  | Some (NDir _) => ret true
  | Some (NFile _) => ret false
  | None => fail (IOError p)
  end.

(** [tlc.Walk(p, filterPaths)] *)
Definition walk_at (p : string) : M Container :=
  log_event (EvWalk p) ;;;
  n <- get_node p ;;
  match n with
  | Some (NDir t) => ret (tlc_Walk t)
  | _ => fail (IOError p)
  end.

(** [os.Open(p)] and reading the whole file. *)
Definition read_file (p : string) : M bytes :=
  log_event (EvOpen p) ;;;
  n <- get_node p ;;
  match n with
  | Some (NFile d) => ret d
  | _ => fail (IOError p)
  end.

(** [os.Create(p)]: truncates, fails on a directory. *)
Definition os_Create (p : string) : M unit :=
  log_event (EvCreate p) ;;;
  n <- get_node p ;;
  match n with
  | Some (NDir _) => fail (IOError p)
  | _ => put_node p (NFile [])
  end.

(** A write to an open file. *)
Definition append_file (p : string) (b : bytes) : M unit :=
  n <- get_node p ;;
  match n with
  | Some (NFile d) => put_node p (NFile (d ++ b))
  | _ => put_node p (NFile b)
  end.

Fixpoint find_file (t : DiskTree) (path : string) : option bytes :=
  match t with
  | [] => None
  | DFile p d :: t' => if String.eqb p path then Some d else find_file t' path
  | _ :: t' => find_file t' path
  end.

(** Reading the file [path] of the tree rooted at [root]. *)
Definition read_tree_file (root path : string) : M bytes :=
  log_event (EvOpen (root ++ "/" ++ path)) ;;;
  n <- get_node root ;;
  match n with
  | Some (NDir t) =>
      match find_file t path with
      | Some d => ret d
      | None => fail (IOError (root ++ "/" ++ path))
      end
  | _ => fail (IOError root)
  end.

(** [ioutil.TempDir] with the empty directory argument and prefix "pwr" *)
Definition TempDir : M string :=
  fun w =>
    let p := ("/tmp/pwr" ++ string_of_list_ascii [ascii_of_nat (48 + tmpSeq w)])%string in
    (Done p,
     mkWorld (fs_set (fs w) p (NDir [])) (console w) (trace w ++ [EvTempDir p])
       (S (tmpSeq w))).

(** [os.RemoveAll(p)] *)
Definition RemoveAll (p : string) : M unit :=
  log_event (EvRemoveAll p) ;;;
  fun w => (Done tt, set_fs (fs_remove (fs w) p) w).

(** [must(err)]: an error ends the process. *)
Definition must (m : M unit) : M unit :=
  fun w =>
    match m w with
    | (Failed e, w1) => comm_Dief "%s" [AErr e] w1
    | r => r
    end.

(** The global [diffArgs] flags read by [doDiff]. *)
Record DiffArgs := mkDiffArgs {
  diffArgs_quality : Z;
  diffArgs_verify : bool
}.

(* ------------------------------------------------------------------ *)
(** ** Concrete hash and codec instances

    The engine below is parametric in the block size, the weak and strong
    hashes and the compressor.  These instances make it executable: an
    rsync-style weak checksum, the identity as an (ideal, injective)
    strong hash, and the [NONE] codec. *)

Definition weak_rsync (w : bytes) : N :=
  let n := N.of_nat (length w) in
  let fix go (l : bytes) (i : N) (a b : N) : N * N :=
    match l with
    | [] => (a, b)
    | x :: l' =>
        go l' (i + 1)%N ((a + Byte.to_N x) mod 65536)%N
           ((b + (n - i) * Byte.to_N x) mod 65536)%N
    end in
  let (a, b) := go w 0%N 0%N 0%N in
  (a + 65536 * b)%N.

Definition strong_identity (w : bytes) : bytes := w.

Definition compress_identity (_ : CompressionSettings) (b : bytes) : bytes := b.

Definition decompress_identity (_ : CompressionSettings) (b : bytes) : option bytes :=
  Some b.

(** Sample inputs: a target tree, a source tree sharing blocks with it, and
    a damaged copy of the target. *)
Definition sample_target : DiskTree :=
  [DFile "a" [x01; x02; x03; x04]; DDir "d"; DFile "b" [x05]].

Definition sample_source : DiskTree :=
  [DFile "a" [x01; x02; x09; x03; x04]; DSymlink "l" "a"; DFile "c" [x05; x06]].

Definition sample_damaged : DiskTree :=
  [DFile "a" [x01; x02; x03; x07]; DFile "b" [x05]].

(** A signature of the sample target's container. *)
Definition sample_signature (hashes : list BlockHash) : Signature :=
  mkSignature (tlc_Walk sample_target) hashes CompressionDefault.

(** A world holding the signature file [sig], the target tree at [old] and
    its damaged copy at [new]. *)
Definition sample_world (sig : bytes) : World :=
  mkWorld [("sig"%string, NFile sig); ("old"%string, NDir sample_target);
          ("new"%string, NDir sample_damaged)]
    [] [] 0.

(* ------------------------------------------------------------------ *)
(** ** The delta engine *)

Section Wharf.

Variable BlockSize : nat.
Variable weakHash : bytes -> N.
Variable strongHash : bytes -> bytes.
Variable compress : CompressionSettings -> bytes -> bytes.
Variable decompress : CompressionSettings -> bytes -> option bytes.

(** Modelled from the spec (§4.1, Block Hasher): one [BlockHash] per
    [BlockSize] block of the file, the last one possibly short; an empty
    file has no block. *)
Fixpoint file_block_hashes (fuel fi bi : nat) (data : bytes) : list BlockHash :=
  match fuel with
  | O => []
  | S fuel' =>
      match data with
      | [] => []
      | _ :: _ =>
          let b := firstn BlockSize data in
          mkBlockHash fi bi (weakHash b) (strongHash b)
            :: file_block_hashes fuel' fi (S bi) (skipn BlockSize data)
      end
  end.

Definition file_hashes (fi : nat) (data : bytes) : list BlockHash :=
  file_block_hashes (length data) fi 0 data.

Fixpoint files_hashes (fi : nat) (files : list bytes) : list BlockHash :=
  match files with
  | [] => []
  | d :: files' => file_hashes fi d ++ files_hashes (S fi) files'
  end.

(** The signature hashes of a tree, flattened in container order. *)
Definition tree_signature (t : DiskTree) : list BlockHash :=
  files_hashes 0 (tree_files t).

(** [DiffContext.ReusedBytes] and [DiffContext.FreshBytes]. *)
Record DiffStats := mkDiffStats {
  ReusedBytes : nat;
  FreshBytes : nat
}.

Section Diff.

Variable comp : CompressionSettings.
Variable targetSignature : list BlockHash.

(** Modelled from the spec (§4.3, steps 1 and 3): the candidates sharing
    the window's weak hash, in signature order; the first whose strong
    hash matches is taken. *)
Definition lookup_block (w : bytes) : option BlockHash :=
  let candidates :=
    filter (fun h => N.eqb (WeakHash h) (weakHash w)) targetSignature in
  find (fun h => bytes_eqb (StrongHash h) (strongHash w)) candidates.

(** Modelled from the spec (§4.3, step 5): a finished literal run. *)
Definition flush_literal (pending : bytes) (st : DiffStats)
    : list Operation * DiffStats :=
  match pending with
  | [] => ([], st)
  | _ :: _ =>
      ([Literal (compress comp pending) (length pending)],
       mkDiffStats (ReusedBytes st) (FreshBytes st + length pending))
  end.

(** Modelled from the spec (§4.3, steps 2 to 5): the sliding-window scan
    of one source file.  [r] is the unscanned rest of the file, [pending]
    the literal run collected so far. *)
Fixpoint diff_scan (fuel : nat) (r pending : bytes) (st : DiffStats)
    : list Operation * DiffStats :=
  match fuel with
  | O => flush_literal pending st
  | S fuel' =>
      match r with
      | [] => flush_literal pending st
      | b :: r' =>
          let w := firstn BlockSize r in
          match lookup_block w with
          | Some h =>
              let (lit, st1) := flush_literal pending st in
              let st2 := mkDiffStats (ReusedBytes st1 + length w) (FreshBytes st1) in
              let (ops, st3) := diff_scan fuel' (skipn (length w) r) [] st2 in
              (lit ++ BlockCopy (FileIndex h) (BlockIndex h * BlockSize) (length w) :: ops,
               st3)
          | None => diff_scan fuel' r' (pending ++ [b]) st
          end
      end
  end.

Definition diff_file (data : bytes) (st : DiffStats) : list Operation * DiffStats :=
  diff_scan (length data) data [] st.

Fixpoint diff_files (files : list bytes) (st : DiffStats)
    : list (list Operation) * DiffStats :=
  match files with
  | [] => ([], st)
  | d :: files' =>
      let (ops, st1) := diff_file d st in
      let (rest, st2) := diff_files files' st1 in
      (ops :: rest, st2)
  end.

(** Modelled from the spec (§4.3): [DiffContext.WritePatch] at the level of
    values: the patch of the source files against [targetSignature], and
    the final stats accumulators. *)
Definition diff_engine_c (c : Container) (files : list bytes) : Patch * DiffStats :=
  let (ops, st) := diff_files files (mkDiffStats 0 0) in
  (mkPatch comp c ops, st).

Definition diff_engine (source : DiskTree) : Patch * DiffStats :=
  diff_engine_c (tlc_Walk source) (tree_files source).

End Diff.

Section Apply.

Variable targetFiles : list bytes.
Variable comp : CompressionSettings.

(** Modelled from the spec (§4.4): the bytes one operation resolves to. *)
Definition resolve_op (op : Operation) : res bytes :=
  match op with
  | BlockCopy fi off len =>
      match nth_error targetFiles fi with
      | None => Err CorruptionError
      | Some data =>
          if off + len <=? length data
          then Ok (firstn len (skipn off data))
          else Err CorruptionError
      end
  | Literal payload n =>
      match decompress comp payload with
      | None => Err CompressionError
      | Some d => if length d =? n then Ok d else Err CorruptionError
      end
  end.

Fixpoint resolve_ops (ops : list Operation) : res bytes :=
  match ops with
  | [] => Ok []
  | op :: ops' =>
      let! d := resolve_op op in
      let! rest := resolve_ops ops' in
      Ok (d ++ rest)
  end.

(** One output file: the resolved length must equal the declared size. *)
Definition apply_file (ops : list Operation) (size : nat) : res bytes :=
  let! d := resolve_ops ops in
  if length d =? size then Ok d else Err CorruptionError.

Fixpoint apply_entries (c : Container) (ops : list (list Operation))
    : res DiskTree :=
  match c with
  | [] => match ops with [] => Ok [] | _ :: _ => Err FormatError end
  | e :: c' =>
      match e_kind e with
      | KFile =>
          match ops with
          | [] => Err FormatError
          | o :: ops' =>
              let! d := apply_file o (e_size e) in
              let! rest := apply_entries c' ops' in
              Ok (DFile (e_path e) d :: rest)
          end
      | KDir =>
          let! rest := apply_entries c' ops in
          Ok (DDir (e_path e) :: rest)
      | KSymlink =>
          let! rest := apply_entries c' ops in
          Ok (DSymlink (e_path e) (e_link e) :: rest)
      end
  end.

End Apply.

(** Modelled from the spec (§4.4): [ApplyContext.ApplyPatch] at the level
    of values, reading BlockCopy ranges from the pristine target files. *)
Definition apply_engine (p : Patch) (target : DiskTree) : res DiskTree :=
  apply_entries (tree_files target) (patch_compression p)
    (patch_container p) (patch_ops p).

(* ------------------------------------------------------------------ *)
(** *** Signatures and patches on the wire *)

(** Modelled from the spec (§3): a file of [size] bytes has
    ceil(size / BlockSize) blocks. *)
Definition nblocks (size : nat) : nat := (size + BlockSize - 1) / BlockSize.

(** The (file index, block index) of every block hash of a well-formed
    signature of [c], in container order. *)
Fixpoint layout_from (fi : nat) (c : Container) : list (nat * nat) :=
  match c with
  | [] => []
  | e :: c' =>
      if is_file e
      then map (fun k => (fi, k)) (seq 0 (nblocks (e_size e))) ++ layout_from (S fi) c'
      else layout_from fi c'
  end.

(** Modelled from the spec (§4.2, §6): the signature stream
    [MAGIC_SIG | Header{compression} | (compressed)[Container | BlockHash*]]. *)
Definition encode_signature (s : Signature) : bytes :=
  let cs := sig_compression s in
  put_magic SignatureMagic ++ put_header cs
    ++ compress cs (put_container (sig_container s)
                    ++ concat (map put_blockhash (sig_hashes s))).

(** Modelled from the spec (§4.2): [pwr.ReadSignature], the inverse of
    [encode_signature]: FormatError on a bad magic or a malformed stream,
    CompressionError on an unsupported or corrupt compression. *)
Definition decode_signature (l : bytes) : res Signature :=
  match get_uint 4 l with
  | None => Err FormatError
  | Some (m, l1) =>
      if negb (N.eqb m SignatureMagic) then Err FormatError else
      match get_header l1 with
      | None => Err FormatError
      | Some ((tag, q), l2) =>
          match alg_of_tag tag with
          | None => Err CompressionError
          | Some alg =>
              let cs := mkCompression alg q in
              match decompress cs l2 with
              | None => Err CompressionError
              | Some payload =>
                  match get_container payload with
                  | None => Err FormatError
                  | Some (c, l3) =>
                      match get_blockhashes (length l3) l3 with
                      | None => Err FormatError
                      | Some hs =>
                          let lay := layout_from 0 c in
                          if length hs =? length lay
                          then Ok (mkSignature c
                                     (map (fun '((fi, k), (wk, st)) => mkBlockHash fi k wk st)
                                        (combine lay hs))
                                     cs)
                          else Err FormatError
                      end
                  end
              end
          end
      end
  end.

(** Modelled from the spec (§6): the patch stream
    [MAGIC_PATCH | Header{compression} | (compressed)[SourceContainer | PerFileOpList*]]. *)
Definition encode_patch (p : Patch) : bytes :=
  let cs := patch_compression p in
  put_magic PatchMagic ++ put_header cs
    ++ compress cs (put_container (patch_container p)
                    ++ concat (map put_ops (patch_ops p))).

Definition decode_patch (l : bytes) : res Patch :=
  match get_uint 4 l with
  | None => Err FormatError
  | Some (m, l1) =>
      if negb (N.eqb m PatchMagic) then Err FormatError else
      match get_header l1 with
      | None => Err FormatError
      | Some ((tag, q), l2) =>
          match alg_of_tag tag with
          | None => Err CompressionError
          | Some alg =>
              let cs := mkCompression alg q in
              match decompress cs l2 with
              | None => Err CompressionError
              | Some payload =>
                  match get_container payload with
                  | None => Err FormatError
                  | Some (c, l3) =>
                      match get_ops_per_file c l3 with
                      | Some (ops, []) => Ok (mkPatch cs c ops)
                      | _ => Err FormatError
                      end
                  end
              end
          end
      end
  end.

(** A [wire.WriteContext]: the raw one writes through to the file, the one
    returned by [pwr.CompressWire] feeds the stream compressor, whose output
    reaches the file when it is closed. *)
Inductive WireCtx :=
| RawWire (path : string)
| CompressedWire (path : string) (cs : CompressionSettings) (pending : bytes).

Definition WriteMessage (w : WireCtx) (msg : bytes) : M WireCtx :=
  match w with
  | RawWire p => append_file p msg ;;; ret w
  | CompressedWire p cs buf => ret (CompressedWire p cs (buf ++ msg))
  end.

Definition WriteMagic (w : WireCtx) (m : N) : M WireCtx := WriteMessage w (put_magic m).

Definition CompressWire (w : WireCtx) (cs : CompressionSettings) : M WireCtx :=
  match w with
  | RawWire p => ret (CompressedWire p cs [])
  | CompressedWire _ _ _ => fail CompressionError
  end.

Definition CloseWire (w : WireCtx) : M unit :=
  match w with
  | RawWire _ => ret tt
  | CompressedWire p cs buf => append_file p (compress cs buf)
  end.

(* ------------------------------------------------------------------ *)
(** *** Hashing, diffing and applying against the file system *)

Fixpoint fold_hashes {A} (step : A -> BlockHash -> M A) (hs : list BlockHash) (acc : A)
    : M A :=
  match hs with
  | [] => ret acc
  | h :: hs' => acc1 <- step acc h ;; fold_hashes step hs' acc1
  end.

(** Modelled from the spec (§4.1): [pwr.ComputeSignatureToWriter], file by
    file in container order, block by block, each hash handed to [step]. *)
Fixpoint signature_to_writer {A} (fi : nat) (c : Container) (root : string)
    (step : A -> BlockHash -> M A) (acc : A) : M A :=
  match c with
  | [] => ret acc
  | e :: c' =>
      if is_file e then
        data <- read_tree_file root (e_path e) ;;
        acc1 <- fold_hashes step (file_hashes fi data) acc ;;
        signature_to_writer (S fi) c' root step acc1
      else signature_to_writer fi c' root step acc
  end.

(** [pwr.ComputeSignature] *)
Definition ComputeSignature (c : Container) (root : string) : M (list BlockHash) :=
  signature_to_writer 0 c root (fun acc h => ret (acc ++ [h])) [].

(** [os.Open] + [pwr.ReadSignature] *)
Definition ReadSignatureFile (p : string) : M Signature :=
  data <- read_file p ;;
  lift (decode_signature data).

Fixpoint read_container_files (c : Container) (root : string) : M (list bytes) :=
  match c with
  | [] => ret []
  | e :: c' =>
      if is_file e then
        d <- read_tree_file root (e_path e) ;;
        rest <- read_container_files c' root ;;
        ret (d :: rest)
      else read_container_files c' root
  end.

(** Modelled from the spec (§4.3, §6): [DiffContext.WritePatch]: the patch
    stream and, as a byproduct, the signature of the source. *)
Definition WritePatch (comp : CompressionSettings) (targetSignature : list BlockHash)
    (sourceContainer : Container) (sourcePath patchPath sigPath : string) : M DiffStats :=
  files <- read_container_files sourceContainer sourcePath ;;
  let (p, st) := diff_engine_c comp targetSignature sourceContainer files in
  append_file patchPath (encode_patch p) ;;;
  append_file sigPath
    (encode_signature (mkSignature sourceContainer (files_hashes 0 files) comp)) ;;;
  ret st.

(** Modelled from the spec (§4.4): [ApplyContext.ApplyPatch]; the target
    files are read from the target tree before the output is written.  A
    target that is not a directory (the null tree) has no files. *)
Definition ApplyPatch (targetPath outputPath : string) (inplace : bool)
    (patchData : bytes) : M unit :=
  p <- lift (decode_patch patchData) ;;
  n <- get_node targetPath ;;
  let tfiles := match n with Some (NDir t) => tree_files t | _ => [] end in
  out <- lift (apply_entries tfiles (patch_compression p) (patch_container p) (patch_ops p)) ;;
  put_node outputPath (NDir out).

Definition same_block (a b : BlockHash) : bool :=
  N.eqb (WeakHash a) (WeakHash b) && bytes_eqb (StrongHash a) (StrongHash b).

Definition block_matches (a b : option BlockHash) : bool :=
  match a, b with
  | Some x, Some y => same_block x y
  | None, None => true
  | _, _ => false
  end.

(** Modelled from the spec (§4.5): [pwr.CompareHashes] compares the
    reference and recomputed hashes block by block; a block present on one
    side only is a mismatch.  The error carries the first mismatching block
    and the number of mismatching blocks. *)
Definition CompareHashes (refHashes hashes : list BlockHash) : option Error :=
  let n := Nat.max (length refHashes) (length hashes) in
  let '(first, count) :=
    fold_left
      (fun (acc : option nat * nat) i =>
         let '(first, count) := acc in
         if block_matches (nth_error refHashes i) (nth_error hashes i) then acc
         else (match first with None => Some i | Some f => Some f end, S count))
      (seq 0 n) (None, 0) in
  match first with
  | None => None
  | Some f => Some (HashMismatch f count)
  end.

(* ------------------------------------------------------------------ *)
(** *** wharf_ops.go *)

(** [doApply] (wharf_ops.go, lines 159-201). *)
Definition doApply (patch target output : string) (inplace : bool) : M unit :=
  let output := if String.eqb output EmptyString then target else output in
  let target := path_Clean target in
  let output := path_Clean output in
  (if String.eqb output target then
     if negb inplace
     then comm_Dief "Refusing to destructively patch %s without --inplace" [AStr output]
     else ret tt
   else ret tt) ;;;
  comm_Opf "Patching %s" output ;;;
  patchReader <- read_file patch ;;
  ApplyPatch target output inplace patchReader.

Definition apply (patch target output : string) (inplace : bool) : M unit :=
  must (doApply patch target output inplace).

(** [doSign] (wharf_ops.go, lines 207-258). *)
Definition doSign (output signature : string) : M unit :=
  comm_Opf "Creating signature for %s" output ;;;
  container <- walk_at output ;;
  os_Create signature ;;;
  let compression := CompressionDefault in
  let rawSigWire := RawWire signature in
  WriteMagic rawSigWire SignatureMagic ;;;
  WriteMessage rawSigWire (put_header compression) ;;;
  sigWire <- CompressWire rawSigWire compression ;;
  sigWire1 <- WriteMessage sigWire (put_container container) ;;
  sigWire2 <- signature_to_writer 0 container output
                (fun w hash => WriteMessage w (put_blockhash hash)) sigWire1 ;;
  CloseWire sigWire2.

Definition sign (output signature : string) : M unit := must (doSign output signature).

(** [doVerify] (wharf_ops.go, lines 264-297). *)
Definition doVerify (signature output : string) : M unit :=
  comm_Opf "Verifying %s" output ;;;
  sig <- ReadSignatureFile signature ;;
  let refContainer := sig_container sig in
  let refHashes := sig_hashes sig in
  hashes <- ComputeSignature refContainer output ;;
  match CompareHashes refHashes hashes with
  | Some err =>
      comm_Logf err ;;;
      comm_Dief "Some checks failed after checking %d block." [ANat (length refHashes)]
  | None => ret tt
  end.

Definition verify (signature output : string) : M unit := must (doVerify signature output).

(** The target side of [doDiff] (wharf_ops.go, lines 25-71): the target
    container and signature. *)
Definition doDiff_target (target : string) : M (Container * list BlockHash) :=
  if String.eqb target "/dev/null" then ret ([] : Container, [] : list BlockHash)
  else
    isDir <- os_Lstat_IsDir target ;;
    if isDir then
      comm_Opf "Hashing %s" target ;;;
      targetContainer <- walk_at target ;;
      targetSignature <- ComputeSignature targetContainer target ;;
      ret (targetContainer, targetSignature)
    else
      comm_Opf "Reading signature from %s" target ;;;
      s <- ReadSignatureFile target ;;
      ret (sig_container s, sig_hashes s).

(** The source side of [doDiff] (wharf_ops.go, lines 75-84). *)
Definition doDiff_source (source : string) : M Container :=
  if String.eqb source "/dev/null" then ret ([] : Container)
  else walk_at source.

(** [doDiff] (wharf_ops.go, lines 22-153); [diffArgs] is the global flag
    record. *)
Definition doDiff (diffArgs : DiffArgs) (target source patch : string)
    (brotliQuality : Z) : M unit :=
  ts <- doDiff_target target ;;
  let (targetContainer, targetSignature) := ts in
  sourceContainer <- doDiff_source source ;;
  os_Create patch ;;;
  let signaturePath := (patch ++ ".sig")%string in
  os_Create signaturePath ;;;
  let compression := mkCompression BROTLI (to_int32 (diffArgs_quality diffArgs)) in
  comm_Opf "Diffing %s" source ;;;
  _ <- WritePatch compression targetSignature sourceContainer source patch signaturePath ;;
  if diffArgs_verify diffArgs then
    tmpDir <- TempDir ;;
    apply patch target tmpDir false ;;;
    verify signaturePath tmpDir ;;;
    RemoveAll tmpDir
  else ret tt.

Definition diff (diffArgs : DiffArgs) (target source patch : string) (brotliQuality : Z)
    : M unit :=
  must (doDiff diffArgs target source patch brotliQuality).

(* ------------------------------------------------------------------ *)
(** *** Notions used in the statements below *)

(** Total number of bytes of a list of files. *)
Fixpoint total_length (files : list bytes) : nat :=
  match files with
  | [] => 0
  | d :: files' => length d + total_length files'
  end.

(** The world left by the in-place refusal of [doApply]. *)
Definition refused_world (w : World) (output : string) : World :=
  mkWorld (fs w)
    (console w ++ [LDie "Refusing to destructively patch %s without --inplace" [AStr output]])
    (trace w) (tmpSeq w).

(** A computation that touches neither the file system nor [tmpSeq] and
    only appends to the console and the I/O trace. *)
Definition frame {A} (m : M A) : Prop :=
  forall w, exists cs tr,
    snd (m w) = mkWorld (fs w) (console w ++ cs) (trace w ++ tr) (tmpSeq w).

(** The same, writing nothing to the console. *)
Definition quiet {A} (m : M A) : Prop :=
  forall w, exists tr,
    snd (m w) = mkWorld (fs w) (console w) (trace w ++ tr) (tmpSeq w).



(** A computation that leaves the temporary-directory counter unchanged. *)
Definition keeps_tmp {A} (m : M A) : Prop :=
  forall w, tmpSeq (snd (m w)) = tmpSeq w.


(** A computation whose outcome depends on the file system only. *)
Definition fs_det {A} (m : M A) : Prop :=
  forall w w', fs w = fs w' -> fst (m w) = fst (m w').


(** Well-formed signatures (C7): every integer fits its field on the wire
    (uint64 for lengths, sizes and counts, uint32 for weak hashes, int32 for
    the quality), and the hashes are exactly the blocks of the container's
    files, in container order. *)
Definition fits64 (n : nat) : bool := (N.of_nat n <? 2 ^ 64)%N.

Definition wf_entry (e : Entry) : bool :=
  fits64 (length (list_byte_of_string (e_path e))) && fits64 (e_size e)
  && fits64 (length (list_byte_of_string (e_link e))).

Definition wf_blockhash (h : BlockHash) : bool :=
  (WeakHash h <? 2 ^ 32)%N && fits64 (length (StrongHash h)).

Definition wf_signature (s : Signature) : Prop :=
  (- 2 ^ 31 <= Quality (sig_compression s) < 2 ^ 31)%Z
  /\ fits64 (length (sig_container s)) = true
  /\ forallb wf_entry (sig_container s) = true
  /\ forallb wf_blockhash (sig_hashes s) = true
  /\ map (fun h => (FileIndex h, BlockIndex h)) (sig_hashes s)
     = layout_from 0 (sig_container s).

(* ================================================================== *)
(** ** Proofs *)

(* ------------------------------------------------------------------ *)
(** *** Bytes and path.Clean on samples *)

Lemma to_N_byte_of_N n : Byte.to_N (byte_of_N n) = (n mod 256)%N.
Proof.
  unfold byte_of_N.
  destruct (Byte.of_N (n mod 256)) eqn:E.
  - now apply Byte.to_of_N in E.
  - apply Byte.of_N_None_iff in E.
    pose proof (N.mod_lt n 256 ltac:(discriminate)). lia.
Qed.

Lemma get_put_uint k n r :
  (n < 256 ^ N.of_nat k)%N -> get_uint k (put_uint k n ++ r) = Some (n, r).
Proof.
  revert n. induction k as [|k IH]; intros n Hn; cbn [get_uint put_uint app].
  - simpl in Hn. f_equal. f_equal. lia.
  - rewrite IH.
    + rewrite to_N_byte_of_N. f_equal. f_equal.
      pose proof (N.div_mod n 256 ltac:(discriminate)). lia.
    + rewrite Nat2N.inj_succ, N.pow_succ_r' in Hn.
      apply N.Div0.div_lt_upper_bound. lia.
Qed.

Lemma bytes_eqb_eq a b : bytes_eqb a b = true <-> a = b.
Proof.
  revert b; induction a as [|x a IH]; intros [|y b]; simpl; split; intro H;
    try discriminate; auto.
  - apply andb_prop in H as [H1 H2].
    apply Byte.byte_dec_bl in H1. apply IH in H2. now subst.
  - injection H as -> ->. rewrite Byte.byte_dec_lb by reflexivity.
    now apply IH.
Qed.

Example path_Clean_ex1 : path_Clean "a/b/"%string = "a/b"%string. Proof. reflexivity. Qed.
Example path_Clean_ex2 : path_Clean "./a//b/."%string = "a/b"%string. Proof. reflexivity. Qed.
Example path_Clean_ex3 : path_Clean "/../a/./b/../c"%string = "/a/c"%string. Proof. reflexivity. Qed.
Example path_Clean_ex4 : path_Clean "a/../.."%string = ".."%string. Proof. reflexivity. Qed.
Example path_Clean_ex5 : path_Clean EmptyString = "."%string. Proof. reflexivity. Qed.
Example path_Clean_ex6 : path_Clean "../../x/"%string = "../../x"%string. Proof. reflexivity. Qed.
Example path_Clean_ex7 : path_Clean "//"%string = "/"%string. Proof. reflexivity. Qed.
Example path_Clean_ex8 : path_Clean "abc/def/../../.."%string = ".."%string. Proof. reflexivity. Qed.

(* ------------------------------------------------------------------ *)
(** *** List facts *)

Lemma firstn_length_firstn {A} (n : nat) (l : list A) :
  firstn (length (firstn n l)) l = firstn n l.
Proof.
  revert l; induction n as [|n IH]; intros [|x l]; simpl; auto.
  now rewrite IH.
Qed.

Lemma skipn_length_firstn {A} (n : nat) (l : list A) :
  skipn (length (firstn n l)) l = skipn n l.
Proof.
  revert l; induction n as [|n IH]; intros [|x l]; simpl; auto.
Qed.

Lemma firstn_skipn_length_firstn {A} (n : nat) (l : list A) :
  firstn n l ++ skipn (length (firstn n l)) l = l.
Proof. rewrite skipn_length_firstn. apply firstn_skipn. Qed.


(* ------------------------------------------------------------------ *)
(** *** Block hashes *)

Lemma file_block_hashes_In fuel fi bi data h :
  In h (file_block_hashes fuel fi bi data) ->
  exists k,
    FileIndex h = fi /\ BlockIndex h = bi + k /\
    k * BlockSize < length data /\
    WeakHash h = weakHash (firstn BlockSize (skipn (k * BlockSize) data)) /\
    StrongHash h = strongHash (firstn BlockSize (skipn (k * BlockSize) data)).
Proof.
  revert bi data. induction fuel as [|fuel IH]; intros bi data Hin;
    simpl in Hin; [contradiction|].
  destruct data as [|x data']; [contradiction|].
  destruct Hin as [<- | Hin].
  - exists 0. simpl. repeat split; lia.
  - destruct (IH _ _ Hin) as (k & H1 & H2 & H3 & H4 & H5).
    exists (S k).
    rewrite length_skipn in H3.
    rewrite skipn_skipn in H4, H5.
    replace (k * BlockSize + BlockSize) with (S k * BlockSize) in H4, H5 by lia.
    repeat split; auto; lia.
Qed.

Lemma files_hashes_In fi files h :
  In h (files_hashes fi files) ->
  exists j d, nth_error files j = Some d /\ In h (file_hashes (fi + j) d).
Proof.
  revert fi. induction files as [|d files IH]; intros fi Hin; simpl in Hin;
    [contradiction|].
  apply in_app_or in Hin as [Hin | Hin].
  - exists 0, d. rewrite Nat.add_0_r. auto.
  - destruct (IH _ Hin) as (j & d' & H1 & H2).
    exists (S j), d'. rewrite Nat.add_succ_r. auto.
Qed.

(** Every hash of a tree's signature describes a block of one of its
    files. *)
Lemma tree_signature_In T h :
  In h (tree_signature T) ->
  exists d,
    nth_error (tree_files T) (FileIndex h) = Some d /\
    BlockIndex h * BlockSize < length d /\
    WeakHash h = weakHash (firstn BlockSize (skipn (BlockIndex h * BlockSize) d)) /\
    StrongHash h = strongHash (firstn BlockSize (skipn (BlockIndex h * BlockSize) d)).
Proof.
  unfold tree_signature. intro Hin.
  destruct (files_hashes_In _ _ _ Hin) as (j & d & Hj & Hd).
  destruct (file_block_hashes_In _ _ _ _ _ Hd) as (k & H1 & H2 & H3 & H4 & H5).
  exists d. simpl in H1, H2. rewrite H1, H2. auto.
Qed.

Lemma lookup_block_Some sig w h :
  lookup_block sig w = Some h ->
  In h sig /\ WeakHash h = weakHash w /\ StrongHash h = strongHash w.
Proof.
  unfold lookup_block. intro H.
  apply find_some in H as [Hin Hs].
  apply filter_In in Hin as [Hin Hw].
  apply N.eqb_eq in Hw. apply bytes_eqb_eq in Hs. auto.
Qed.

Lemma lookup_block_nil w : lookup_block [] w = None.
Proof. reflexivity. Qed.

(* ------------------------------------------------------------------ *)
(** *** Resolving operations *)

Lemma resolve_ops_app tf comp a b x y :
  resolve_ops tf comp a = Ok x -> resolve_ops tf comp b = Ok y ->
  resolve_ops tf comp (a ++ b) = Ok (x ++ y).
Proof.
  revert x. induction a as [|op a IH]; intros x Ha Hb; simpl in *.
  - injection Ha as <-. exact Hb.
  - destruct (resolve_op tf comp op) as [d|e]; simpl in *; [|discriminate].
    destruct (resolve_ops tf comp a) as [r|e] eqn:Er; simpl in *; [|discriminate].
    injection Ha as <-. rewrite (IH r eq_refl Hb). simpl.
    now rewrite app_assoc.
Qed.

Lemma resolve_ops_cons tf comp op ops d r :
  resolve_op tf comp op = Ok d -> resolve_ops tf comp ops = Ok r ->
  resolve_ops tf comp (op :: ops) = Ok (d ++ r).
Proof. intros H1 H2. simpl. rewrite H1. simpl. rewrite H2. reflexivity. Qed.

Lemma flush_literal_resolves tf comp pending st :
  (forall x, decompress comp (compress comp x) = Some x) ->
  resolve_ops tf comp (fst (flush_literal comp pending st)) = Ok pending.
Proof.
  intro Hc. destruct pending as [|b p]; simpl; auto.
  rewrite Hc, Nat.eqb_refl. simpl. now rewrite app_nil_r.
Qed.

Lemma flush_literal_stats comp pending st :
  ReusedBytes (snd (flush_literal comp pending st)) = ReusedBytes st /\
  FreshBytes (snd (flush_literal comp pending st)) = FreshBytes st + length pending.
Proof. destruct pending; simpl; auto. Qed.


Lemma apply_entries_ok tf comp S opss :
  Forall2 (fun ops d => resolve_ops tf comp ops = Ok d) opss (tree_files S) ->
  apply_entries tf comp (tlc_Walk S) opss = Ok S.
Proof.
  revert opss. induction S as [|de S IH]; intros opss Hf; simpl in *.
  - inversion Hf; subst. reflexivity.
  - destruct de as [p d | p | p dest]; simpl.
    + inversion Hf as [|ops d' opss' S' Hops Hrest]; subst.
      unfold apply_file. rewrite Hops. simpl.
      rewrite Nat.eqb_refl. simpl. now rewrite (IH _ Hrest).
    + now rewrite (IH _ Hf).
    + now rewrite (IH _ Hf).
Qed.

Lemma diff_files_Forall2 comp sig (P : list Operation -> bytes -> Prop) files st :
  (forall d st', P (fst (diff_file comp sig d st')) d) ->
  Forall2 P (fst (diff_files comp sig files st)) files.
Proof.
  intro HP. revert st. induction files as [|d files IH]; intro st; simpl.
  - constructor.
  - destruct (diff_file comp sig d st) as [ops st1] eqn:E1.
    destruct (diff_files comp sig files st1) as [rest st2] eqn:E2.
    simpl. constructor.
    + specialize (HP d st). rewrite E1 in HP. exact HP.
    + specialize (IH st1). rewrite E2 in IH. exact IH.
Qed.

(* ------------------------------------------------------------------ *)
(** *** The scan reproduces the source *)

Section Scan.

Variable comp : CompressionSettings.
Variable T : DiskTree.

Hypothesis Hbs : 0 < BlockSize.
Hypothesis Hinj : forall a b, strongHash a = strongHash b -> a = b.
Hypothesis Hcodec : forall x, decompress comp (compress comp x) = Some x.

Lemma resolve_matched_block h w :
  In h (tree_signature T) -> StrongHash h = strongHash w ->
  resolve_op (tree_files T) comp
    (BlockCopy (FileIndex h) (BlockIndex h * BlockSize) (length w)) = Ok w.
Proof.
  intros Hin Hs.
  destruct (tree_signature_In _ _ Hin) as (d & Hd & Hlt & _ & Hstrong).
  rewrite Hs in Hstrong. apply Hinj in Hstrong.
  simpl. rewrite Hd.
  assert (Hlen : length w <= length d - BlockIndex h * BlockSize).
  { rewrite Hstrong, length_firstn, length_skipn. lia. }
  replace (BlockIndex h * BlockSize + length w <=? length d) with true
    by (symmetry; apply Nat.leb_le; lia).
  f_equal. rewrite Hstrong at 1. rewrite Hstrong. apply firstn_length_firstn.
Qed.

Lemma diff_scan_resolves fuel r pending st :
  length r <= fuel ->
  resolve_ops (tree_files T) comp
    (fst (diff_scan comp (tree_signature T) fuel r pending st)) = Ok (pending ++ r).
Proof.
  revert r pending st. induction fuel as [|fuel IH]; intros r pending st Hlen.
  - destruct r; [|simpl in Hlen; lia]. simpl.
    rewrite app_nil_r. now apply flush_literal_resolves.
  - destruct r as [|b r']; simpl.
    + rewrite app_nil_r. now apply flush_literal_resolves.
    + destruct (lookup_block (tree_signature T) (firstn BlockSize (b :: r'))) as [h|]
        eqn:Hl.
      * apply lookup_block_Some in Hl as (Hin & _ & Hs).
        pose proof (flush_literal_resolves (tree_files T) comp pending st Hcodec) as Hf.
        destruct (flush_literal comp pending st) as [lit st1]. simpl in Hf.
        set (w := firstn BlockSize (b :: r')) in *.
        assert (Hw : 1 <= length w).
        { unfold w. destruct BlockSize; [lia|]. simpl. lia. }
        set (st2 := mkDiffStats (ReusedBytes st1 + length w) (FreshBytes st1)).
        assert (Hrest : resolve_ops (tree_files T) comp
                  (fst (diff_scan comp (tree_signature T) fuel (skipn (length w) (b :: r')) [] st2))
                = Ok (skipn (length w) (b :: r'))).
        { apply IH. rewrite length_skipn.
          change (length (b :: r')) with (S (length r')) in *. lia. }
        destruct (diff_scan comp (tree_signature T) fuel (skipn (length w) (b :: r')) [] st2)
          as [ops st3].
        cbn [fst] in *.
        rewrite (resolve_ops_app (tree_files T) comp lit _ pending (w ++ skipn (length w) (b :: r')) Hf).
        -- f_equal. f_equal. apply firstn_skipn_length_firstn.
        -- apply resolve_ops_cons. 
           ++ exact (resolve_matched_block _ _ Hin Hs).
           ++ exact Hrest.
      * rewrite IH by (simpl in Hlen; lia).
        now rewrite <- app_assoc.
Qed.

Lemma diff_file_resolves d st :
  resolve_ops (tree_files T) comp (fst (diff_file comp (tree_signature T) d st)) = Ok d.
Proof. unfold diff_file. now rewrite diff_scan_resolves. Qed.

End Scan.

(* ------------------------------------------------------------------ *)
(** *** Stats accumulators *)

Lemma container_Size_walk S :
  container_Size (tlc_Walk S) = total_length (tree_files S).
Proof.
  induction S as [|de S IH]; simpl; auto.
  destruct de; simpl; rewrite <- IH; reflexivity.
Qed.

Lemma diff_scan_stats comp sig fuel r pending st :
  0 < BlockSize -> length r <= fuel ->
  ReusedBytes (snd (diff_scan comp sig fuel r pending st))
  + FreshBytes (snd (diff_scan comp sig fuel r pending st))
  = ReusedBytes st + FreshBytes st + length pending + length r.
Proof.
  intro Hbs. revert r pending st.
  induction fuel as [|fuel IH]; intros r pending st Hlen.
  - destruct r; [|simpl in Hlen; lia]. simpl.
    destruct (flush_literal_stats comp pending st) as [H1 H2]. lia.
  - destruct r as [|b r']; simpl.
    + destruct (flush_literal_stats comp pending st) as [H1 H2]. lia.
    + destruct (lookup_block sig (firstn BlockSize (b :: r'))) as [h|].
      * pose proof (flush_literal_stats comp pending st) as [H1 H2].
        destruct (flush_literal comp pending st) as [lit st1]. simpl in H1, H2.
        set (w := firstn BlockSize (b :: r')) in *.
        assert (Hw : 1 <= length w <= length (b :: r')).
        { unfold w. rewrite length_firstn. destruct BlockSize; [lia|]. simpl. lia. }
        set (st2 := mkDiffStats (ReusedBytes st1 + length w) (FreshBytes st1)).
        pose proof (IH (skipn (length w) (b :: r')) [] st2) as IH'.
        destruct (diff_scan comp sig fuel (skipn (length w) (b :: r')) [] st2) as [ops st3].
        cbn [snd] in *. rewrite IH'.
        -- unfold st2. cbn [ReusedBytes FreshBytes length] in *.
           rewrite length_skipn. simpl length in *. lia.
        -- rewrite length_skipn. change (length (b :: r')) with (S (length r')) in *. lia.
      * rewrite IH by (simpl in Hlen; lia). rewrite length_app. simpl. lia.
Qed.

Lemma diff_files_stats comp sig files st :
  0 < BlockSize ->
  ReusedBytes (snd (diff_files comp sig files st))
  + FreshBytes (snd (diff_files comp sig files st))
  = ReusedBytes st + FreshBytes st + total_length files.
Proof.
  intro Hbs. revert st. induction files as [|d files IH]; intro st; simpl.
  - lia.
  - pose proof (diff_scan_stats comp sig (length d) d [] st Hbs (le_n _)) as Hd.
    unfold diff_file. destruct (diff_scan comp sig (length d) d [] st) as [ops st1].
    simpl in Hd. specialize (IH st1).
    destruct (diff_files comp sig files st1) as [rest st2]. simpl in *. lia.
Qed.

(* ------------------------------------------------------------------ *)
(** *** Diffing against the null tree *)

Lemma diff_scan_null comp fuel r pending st :
  length r <= fuel ->
  diff_scan comp [] fuel r pending st = flush_literal comp (pending ++ r) st.
Proof.
  revert r pending st. induction fuel as [|fuel IH]; intros r pending st Hlen.
  - destruct r; [|simpl in Hlen; lia]. simpl. now rewrite app_nil_r.
  - destruct r as [|b r']; simpl.
    + now rewrite app_nil_r.
    + rewrite IH by (simpl in Hlen; lia). now rewrite <- app_assoc.
Qed.

Lemma diff_files_null comp files st :
  fst (diff_files comp [] files st)
  = map (fun d => match d with
                  | [] => []
                  | _ :: _ => [Literal (compress comp d) (length d)]
                  end) files
  /\ ReusedBytes (snd (diff_files comp [] files st)) = ReusedBytes st.
Proof.
  revert st. induction files as [|d files IH]; intro st; simpl; auto.
  unfold diff_file. rewrite diff_scan_null by lia. simpl.
  destruct (flush_literal comp d st) as [ops st1] eqn:E.
  destruct (IH st1) as [IH1 IH2].
  destruct (diff_files comp [] files st1) as [rest st2]. simpl in *.
  pose proof (flush_literal_stats comp d st) as [H1 _]. rewrite E in H1. simpl in H1.
  split.
  - f_equal; auto. destruct d; simpl in E; injection E; intros; subst; reflexivity.
  - congruence.
Qed.

(* ------------------------------------------------------------------ *)
(** *** Provenance of BlockCopy operations *)



(* ------------------------------------------------------------------ *)
(** *** Claims about the delta engine *)

(** C1: with an ideal (collision-free) strong hash and a lossless literal
    codec, applying to [T] the patch obtained by diffing [S] against the
    signature of [T] rebuilds [S] exactly: same entries, same file bytes. *)
Theorem diff_apply_roundtrip comp T S :
  0 < BlockSize ->
  (forall a b, strongHash a = strongHash b -> a = b) ->
  (forall x, decompress comp (compress comp x) = Some x) ->
  apply_engine (fst (diff_engine comp (tree_signature T) S)) T = Ok S.
Proof.
  intros Hbs Hinj Hcodec.
  unfold diff_engine, diff_engine_c, apply_engine.
  pose proof (diff_files_Forall2 comp (tree_signature T)
                (fun ops d => resolve_ops (tree_files T) comp ops = Ok d)
                (tree_files S) (mkDiffStats 0 0)
                (diff_file_resolves comp T Hbs Hinj Hcodec)) as HF.
  destruct (diff_files comp (tree_signature T) (tree_files S) (mkDiffStats 0 0))
    as [ops st].
  simpl in *. now apply apply_entries_ok.
Qed.

(** C4: when a diff completes, ReusedBytes + FreshBytes equals the total
    size of the source container. *)
Theorem diff_stats_cover_source comp sig S :
  0 < BlockSize ->
  ReusedBytes (snd (diff_engine comp sig S)) + FreshBytes (snd (diff_engine comp sig S))
  = container_Size (tlc_Walk S).
Proof.
  intro Hbs. unfold diff_engine, diff_engine_c.
  pose proof (diff_files_stats comp sig (tree_files S) (mkDiffStats 0 0) Hbs) as H.
  destruct (diff_files comp sig (tree_files S) (mkDiffStats 0 0)) as [ops st].
  simpl in *. rewrite container_Size_walk. exact H.
Qed.

(** C5: diffing against the null target gives one Literal per non-empty
    source file (nothing else), zero ReusedBytes, and a patch that rebuilds
    [S] from the empty tree; diffing the null source gives the empty patch,
    which rebuilds the empty tree; in [doDiff] the path "/dev/null" selects
    the null tree on either side, as an empty Container (and an empty
    signature), without touching the file system. *)
Theorem diff_null_trees comp sig S T :
  (forall x, decompress comp (compress comp x) = Some x) ->
  patch_ops (fst (diff_engine comp [] S))
    = map (fun d => match d with
                    | [] => []
                    | _ :: _ => [Literal (compress comp d) (length d)]
                    end) (tree_files S)
  /\ ReusedBytes (snd (diff_engine comp [] S)) = 0
  /\ apply_engine (fst (diff_engine comp [] S)) [] = Ok S
  /\ diff_engine comp sig [] = (mkPatch comp [] [], mkDiffStats 0 0)
  /\ apply_engine (mkPatch comp [] []) T = Ok []
  /\ (forall w, doDiff_target "/dev/null" w = (Done ([], []), w))
  /\ (forall w, doDiff_source "/dev/null" w = (Done [], w)).
Proof.
  intro Hcodec.
  destruct (diff_files_null comp (tree_files S) (mkDiffStats 0 0)) as [H1 H2].
  pose proof (diff_files_Forall2 comp []
                (fun ops d => resolve_ops [] comp ops = Ok d)
                (tree_files S) (mkDiffStats 0 0)) as HF.
  unfold diff_engine, diff_engine_c, apply_engine in *.
  destruct (diff_files comp [] (tree_files S) (mkDiffStats 0 0)) as [ops st].
  simpl in *. repeat split; auto.
  apply apply_entries_ok. apply HF.
  intros d st'. unfold diff_file. rewrite diff_scan_null by lia.
  now apply flush_literal_resolves.
Qed.


(* ------------------------------------------------------------------ *)
(** *** path.Clean ignores a trailing slash *)

Lemma at_sep_app_slash p : at_sep (p ++ [slash]) = at_sep p.
Proof. destruct p; reflexivity. Qed.

Lemma copy_elem_app_slash p out :
  copy_elem (p ++ [slash]) out
  = (fst (copy_elem p out) ++ [slash], snd (copy_elem p out)).
Proof.
  revert out. induction p as [|c p IH]; intro out; simpl; auto.
  destruct (is_slash c); simpl; auto.
Qed.

Lemma copy_elem_length p out : length (fst (copy_elem p out)) <= length p.
Proof.
  revert out. induction p as [|c p IH]; intro out; simpl; auto.
  destruct (is_slash c); simpl; auto.
Qed.

Lemma clean_loop_nil n rooted out dd : clean_loop n rooted [] out dd = out.
Proof. destruct n; reflexivity. Qed.

Lemma clean_loop_cons f rooted c p1 out dd :
  clean_loop (S f) rooted (c :: p1) out dd =
  if is_slash c then
    (* empty path element *)
    clean_loop f rooted p1 out dd
  else if is_dot c && at_sep p1 then
    (* . element *)
    clean_loop f rooted p1 out dd
  else
    match p1 with
    | c2 :: p2 =>
        if is_dot c && is_dot c2 && at_sep p2 then
          (* .. element: remove to last / *)
          if dd <? length out then
            clean_loop f rooted p2 (clean_backtrack out dd) dd
          else if negb rooted then
            (* cannot backtrack, but not rooted, so append .. element *)
            let out1 := if 0 <? length out then slash :: out else out in
            let out2 := dot :: dot :: out1 in
            clean_loop f rooted p2 out2 (length out2)
          else clean_loop f rooted p2 out dd
        else
          let out1 :=
            if (rooted && negb (length out =? 1))
               || (negb rooted && negb (length out =? 0))
            then slash :: out else out in
          let (p', out2) := copy_elem (c :: p1) out1 in
          clean_loop f rooted p' out2 dd
    | [] =>
        let out1 :=
          if (rooted && negb (length out =? 1))
             || (negb rooted && negb (length out =? 0))
          then slash :: out else out in
        let (p', out2) := copy_elem (c :: p1) out1 in
        clean_loop f rooted p' out2 dd
    end.
Proof. reflexivity. Qed.

Lemma clean_loop_trailing_slash rooted n :
  forall p out dd, length p <= n ->
  clean_loop (S n) rooted (p ++ [slash]) out dd = clean_loop n rooted p out dd.
Proof.
  induction n as [|n IH]; intros p out dd Hlen.
  - destruct p; [|simpl in Hlen; lia]. reflexivity.
  - destruct p as [|c p1]; [reflexivity|].
    simpl in Hlen.
    change ((c :: p1) ++ [slash]) with (c :: (p1 ++ [slash])).
    rewrite !clean_loop_cons. rewrite at_sep_app_slash.
    destruct (is_slash c) eqn:Hc; [apply IH; lia|].
    destruct (is_dot c && at_sep p1) eqn:Hd; [apply IH; lia|].
    destruct p1 as [|c2 p2].
    + cbn [app copy_elem]. rewrite Hc. cbn [copy_elem is_slash].
      destruct (is_dot c); simpl; rewrite ?clean_loop_nil; reflexivity.
    + cbn [app]. rewrite at_sep_app_slash. simpl in Hlen.
      destruct (is_dot c && is_dot c2 && at_sep p2) eqn:Hdd.
      * destruct (dd <? length out); [apply IH; lia|].
        destruct (negb rooted); apply IH; lia.
      * generalize (if rooted && negb (length out =? 1)
                       || negb rooted && negb (length out =? 0)
                    then slash :: out else out).
        intro out1.
        change (c :: c2 :: p2 ++ [slash]) with ((c :: c2 :: p2) ++ [slash]).
        rewrite copy_elem_app_slash.
        assert (E1 : copy_elem (c :: c2 :: p2) out1 = copy_elem (c2 :: p2) (c :: out1))
          by (cbn [copy_elem]; now rewrite Hc).
        rewrite E1.
        pose proof (copy_elem_length (c2 :: p2) (c :: out1)) as Hl.
        destruct (copy_elem (c2 :: p2) (c :: out1)) as [p' out2].
        cbn [fst snd] in *. apply IH. simpl in Hl. lia.
Qed.

Lemma list_ascii_of_string_app s t :
  list_ascii_of_string (s ++ t) = list_ascii_of_string s ++ list_ascii_of_string t.
Proof. induction s as [|c s IH]; simpl; congruence. Qed.

Lemma path_Clean_trailing_slash s :
  s <> EmptyString -> path_Clean (s ++ "/") = path_Clean s.
Proof.
  intro Hs. unfold path_Clean.
  rewrite list_ascii_of_string_app.
  destruct (list_ascii_of_string s) as [|c p1] eqn:E.
  - destruct s; [contradiction|discriminate].
  - change (list_ascii_of_string "/") with [slash].
    change ((c :: p1) ++ [slash]) with (c :: (p1 ++ [slash])).
    replace (length (c :: p1 ++ [slash])) with (S (length (c :: p1)))
      by (cbn [length]; rewrite length_app; cbn [length]; lia).
    destruct (is_slash c).
    + rewrite clean_loop_trailing_slash by (cbn [length]; lia). reflexivity.
    + change (c :: p1 ++ [slash]) with ((c :: p1) ++ [slash]).
      rewrite clean_loop_trailing_slash by (simpl; lia). reflexivity.
Qed.

(* ------------------------------------------------------------------ *)
(** *** path.Clean element by element *)
Lemma split_elems_hd p : split_elems p = head_elem p :: tl (split_elems p).
Proof.
  unfold head_elem. induction p as [|c p IH]; [reflexivity|].
  simpl. destruct (is_slash c); [reflexivity|]. rewrite IH. reflexivity.
Qed.

Lemma split_elems_name c p :
  is_slash c = false ->
  split_elems (c :: p) = (c :: head_elem p) :: tl (split_elems p).
Proof. intro H. simpl. rewrite H, split_elems_hd. reflexivity. Qed.

Lemma at_sep_split p : at_sep p = true -> split_elems p = [] :: tl (split_elems p).
Proof. destruct p as [|c p]; [reflexivity|]. simpl. intro H. now rewrite H. Qed.

Lemma head_elem_at_sep p : at_sep p = true -> head_elem p = [].
Proof. intro H. unfold head_elem. now rewrite at_sep_split. Qed.

Lemma copy_elem_split p out :
  forall p' out', copy_elem p out = (p', out') ->
  p = head_elem p ++ p'
  /\ split_elems p' = [] :: tl (split_elems p)
  /\ out' = rev (head_elem p) ++ out
  /\ forallb (fun c => negb (is_slash c)) (head_elem p) = true.
Proof.
  revert out. induction p as [|c p IH]; intros out p' out' E; simpl in E.
  - injection E as <- <-. repeat split.
  - unfold head_elem. simpl. destruct (is_slash c) eqn:Hc.
    + injection E as <- <-. simpl. rewrite Hc. repeat split.
    + destruct (IH _ _ _ E) as (H1 & H2 & H3 & H4).
      rewrite (split_elems_hd p). simpl.
      fold (head_elem p). repeat split.
      * simpl. now f_equal.
      * exact H2.
      * rewrite H3. simpl. now rewrite <- app_assoc.
      * simpl. now rewrite Hc, H4.
Qed.

Lemma join_elems_snoc M e :
  join_elems (M ++ [e]) = match M with [] => e | _ :: _ => join_elems M ++ slash :: e end.
Proof.
  induction M as [|a M IH]; [reflexivity|].
  destruct M as [|b M]; [reflexivity|].
  change (join_elems ((a :: b :: M) ++ [e])) with (a ++ slash :: join_elems ((b :: M) ++ [e])).
  rewrite IH. change (join_elems (a :: b :: M)) with (a ++ slash :: join_elems (b :: M)).
  now rewrite <- app_assoc.
Qed.

Lemma join_elems_app L R :
  join_elems (L ++ R)
  = match L, R with
    | [], _ => join_elems R
    | _, [] => join_elems L
    | _, _ => join_elems L ++ slash :: join_elems R
    end.
Proof.
  induction L as [|a L IH]; [reflexivity|].
  destruct R as [|r R]; [now rewrite app_nil_r|].
  destruct L as [|b L]; [reflexivity|].
  change (join_elems ((a :: b :: L) ++ r :: R)) with (a ++ slash :: join_elems ((b :: L) ++ r :: R)).
  rewrite IH. change (join_elems (a :: b :: L)) with (a ++ slash :: join_elems (b :: L)).
  now rewrite <- app_assoc.
Qed.

Lemma join_elems_nil M : Forall (fun e => e <> []) M -> join_elems M = [] -> M = [].
Proof.
  intros HF. destruct M as [|a M]; [reflexivity|]. inversion HF; subst.
  destruct M as [|b M]; simpl; [intro E; contradiction|].
  intro E. destruct a; [contradiction|discriminate].
Qed.

Lemma join_elems_prefix_length L R :
  length (join_elems L) <= length (join_elems (L ++ R)).
Proof.
  rewrite join_elems_app. destruct L, R; simpl; rewrite ?length_app; simpl; lia.
Qed.

Lemma name_elem_nonempty e : name_elem e = true -> e <> [].
Proof. destruct e; [discriminate|congruence]. Qed.

Lemma name_elem_noslash e :
  name_elem e = true -> forallb (fun c => negb (is_slash c)) e = true.
Proof. unfold name_elem. destruct (classify_elem e); congruence. Qed.

Lemma clean_backtrack_name l rest dd :
  l <> [] -> forallb (fun c => negb (is_slash c)) l = true -> dd <= length rest ->
  clean_backtrack (l ++ rest) dd = if dd <? length rest then clean_backtrack rest dd else rest.
Proof.
  induction l as [|a l IH]; intros Hne Hs Hd; [contradiction|].
  simpl in Hs. apply andb_true_iff in Hs as [Ha Hs]. apply negb_true_iff in Ha.
  cbn [app clean_backtrack]. rewrite Ha. destruct l as [|b l].
  - cbn [app]. now rewrite andb_true_r.
  - rewrite (proj2 (Nat.ltb_lt dd _)) by (rewrite length_app; simpl; lia).
    simpl negb. rewrite andb_true_r. apply IH; [discriminate|exact Hs|exact Hd].
Qed.

Lemma clean_backtrack_pop n M base dd :
  name_elem n = true ->
  dd <= length base + length (join_elems M) ->
  (M = [] -> dd = length base) ->
  clean_backtrack (rev (join_elems (M ++ [n])) ++ base) dd = rev (join_elems M) ++ base.
Proof.
  intros Hn Hd HM. rewrite join_elems_snoc.
  pose proof (name_elem_nonempty n Hn) as Hne.
  pose proof (name_elem_noslash n Hn) as Hs.
  assert (Hs' : forallb (fun c => negb (is_slash c)) (rev n) = true).
  { rewrite forallb_forall in *. intros x Hx. apply Hs. now apply in_rev. }
  assert (Hne' : rev n <> []) by (intro E; apply (f_equal (@length _)) in E; rewrite length_rev in E; destruct n; [contradiction|discriminate]).
  destruct M as [|m M].
  - specialize (HM eq_refl). cbn [rev join_elems app].
    rewrite clean_backtrack_name by (auto; lia).
    rewrite HM. now rewrite Nat.ltb_irrefl.
  - set (J := join_elems (m :: M)) in *.
    rewrite rev_app_distr. cbn [rev]. rewrite <- !app_assoc. cbn [app].
    rewrite clean_backtrack_name
      by (auto; cbn [length]; rewrite length_app, length_rev; lia).
    rewrite (proj2 (Nat.ltb_lt _ _)) by (cbn [length]; rewrite length_app, length_rev; lia).
    cbn [clean_backtrack]. change (is_slash slash) with true. now rewrite andb_false_r.
Qed.

Lemma render_elems_rev rooted ups names :
  rev (render_elems rooted (ups, names))
  = rev (join_elems (clean_elems_of rooted ups names)) ++ clean_base rooted.
Proof.
  unfold render_elems, clean_elems_of, clean_base. destruct rooted; [reflexivity|].
  now rewrite app_nil_r.
Qed.

Lemma clean_elems_of_cons rooted ups e names :
  clean_elems_of rooted ups (e :: names) = clean_elems_of rooted ups names ++ [e].
Proof. unfold clean_elems_of. destruct rooted; simpl; now rewrite ?app_assoc. Qed.

Lemma name_elems_nonempty names :
  forallb name_elem names = true -> Forall (fun e => e <> []) names.
Proof.
  induction names as [|n names IH]; simpl; [constructor|].
  rewrite andb_true_iff. intros [Hn Hs]. constructor; auto. now apply name_elem_nonempty.
Qed.

Lemma clean_elems_of_nonempty rooted ups names :
  forallb name_elem names = true -> Forall (fun e => e <> []) (clean_elems_of rooted ups names).
Proof.
  intro H. apply name_elems_nonempty in H.
  assert (Hr : Forall (fun e => e <> []) (rev names)) by (apply Forall_rev; exact H).
  unfold clean_elems_of. destruct rooted; [exact Hr|].
  apply Forall_app; split; [|exact Hr].
  apply Forall_forall. intros x Hx. apply repeat_spec in Hx. subst. discriminate.
Qed.

Lemma join_elems_length_pos M :
  Forall (fun e => e <> []) M -> M <> [] -> 0 < length (join_elems M).
Proof.
  intros HF HM. destruct (length (join_elems M)) eqn:E; [|lia].
  apply length_zero_iff_nil, join_elems_nil in E; [contradiction|exact HF].
Qed.

Lemma repeat_snoc {A} (x : A) n : repeat x (S n) = repeat x n ++ [x].
Proof.
  induction n as [|n IH]; [reflexivity|].
  cbn [repeat app] in *. f_equal. exact IH.
Qed.

Lemma is_dot_not_slash c : is_dot c = true -> is_slash c = false.
Proof. unfold is_dot. intro H. apply Ascii.eqb_eq in H. now subst. Qed.

Lemma head_elem_nil_at_sep p : head_elem p = [] -> at_sep p = true.
Proof.
  destruct p as [|c p]; [reflexivity|]. unfold head_elem. simpl.
  destruct (is_slash c); [reflexivity|]. destruct (split_elems p); discriminate.
Qed.

Lemma head_elem_name c p :
  is_slash c = false -> head_elem (c :: p) = c :: head_elem p.
Proof. intro H. unfold head_elem. now rewrite split_elems_name. Qed.

Lemma clean_inv_push rooted ups names out dd e :
  clean_inv rooted ups names out dd -> name_elem e = true ->
  clean_inv rooted ups (e :: names)
    (rev e ++ (if (rooted && negb (length out =? 1))
                  || (negb rooted && negb (length out =? 0))
               then slash :: out else out)) dd.
Proof.
  intros (Hout & Hdd & Hr & Hn) He.
  split; [|split; [exact Hdd|split; [exact Hr|simpl; now rewrite He, Hn]]].
  rewrite render_elems_rev, clean_elems_of_cons, join_elems_snoc.
  rewrite render_elems_rev in Hout.
  pose proof (clean_elems_of_nonempty rooted ups names Hn) as HF.
  destruct (clean_elems_of rooted ups names) as [|m M] eqn:EM.
  - cbn [join_elems rev app] in Hout. subst out.
    destruct rooted; reflexivity.
  - assert (Hp := join_elems_length_pos (m :: M) HF ltac:(discriminate)).
    set (J := join_elems (m :: M)) in *.
    replace ((rooted && negb (length out =? 1)) || (negb rooted && negb (length out =? 0)))
      with true.
    + rewrite Hout, rev_app_distr. cbn [rev]. now rewrite <- !app_assoc.
    + subst out. rewrite length_app, length_rev.
      destruct rooted; cbn [clean_base length negb andb orb];
        destruct (_ =? _) eqn:E; auto; apply Nat.eqb_eq in E; lia.
Qed.

Lemma clean_inv_pop rooted ups n names out dd :
  clean_inv rooted ups (n :: names) out dd ->
  dd < length out /\ clean_inv rooted ups names (clean_backtrack out dd) dd.
Proof.
  intros (Hout & Hdd & Hr & Hn). simpl in Hn. apply andb_true_iff in Hn as [Hn1 Hn].
  rewrite render_elems_rev, clean_elems_of_cons in Hout.
  pose proof (name_elem_nonempty n Hn1) as Hne.
  assert (Hb : dd <= length (clean_base rooted)
                     + length (join_elems (clean_elems_of rooted ups names))
               /\ (clean_elems_of rooted ups names = [] -> dd = length (clean_base rooted))).
  { unfold clean_elems_of, clean_base. destruct rooted; cbn [length].
    - split; [lia|]. now rewrite Hdd.
    - split.
      + rewrite Hdd. apply join_elems_prefix_length.
      + intro E. apply app_eq_nil in E as [E _]. destruct ups; [now rewrite Hdd|discriminate]. }
  destruct Hb as [Hb1 Hb2]. split.
  - rewrite Hout, length_app, length_rev, join_elems_snoc.
    destruct (clean_elems_of rooted ups names) as [|m M] eqn:EM.
    + specialize (Hb2 eq_refl). destruct n; [contradiction|]. simpl. lia.
    + rewrite length_app. cbn [length]. lia.
  - split; [|split; [exact Hdd|split; [exact Hr|exact Hn]]].
    rewrite Hout, render_elems_rev. now apply clean_backtrack_pop.
Qed.

Lemma clean_inv_top rooted ups out dd :
  clean_inv rooted ups [] out dd -> length out = dd.
Proof.
  intros (Hout & Hdd & Hr & _). subst out. rewrite render_elems_rev, length_app, length_rev.
  unfold clean_elems_of, clean_base. destruct rooted; cbn [rev app length join_elems].
  - lia.
  - now rewrite app_nil_r, Hdd, Nat.add_0_r.
Qed.

Lemma clean_inv_up ups out dd :
  clean_inv false ups [] out dd ->
  let out1 := if 0 <? length out then slash :: out else out in
  clean_inv false (S ups) [] (dot :: dot :: out1) (length (dot :: dot :: out1)).
Proof.
  intros (Hout & Hdd & _ & _). cbv zeta.
  assert (E : rev (render_elems false (S ups, [])) = dot :: dot :: (if 0 <? length out then slash :: out else out)).
  { cbn [render_elems rev app]. rewrite !app_nil_r, repeat_snoc, join_elems_snoc.
    rewrite Hout. cbn [render_elems rev]. rewrite app_nil_r.
    destruct ups as [|u]; [reflexivity|].
    set (R := repeat dotdot (S u)).
    assert (Hp : 0 < length (join_elems R)).
    { apply join_elems_length_pos; [|discriminate].
      apply Forall_forall. intros x Hx. apply repeat_spec in Hx. subst. discriminate. }
    cbn zeta. destruct R as [|r R']; [simpl in Hp; lia|].
    rewrite length_rev, (proj2 (Nat.ltb_lt _ _)) by exact Hp.
    rewrite rev_app_distr. reflexivity. }
  split; [now rewrite E|]. split; [|split; [discriminate|reflexivity]].
  rewrite <- E, length_rev. cbn [render_elems]. now rewrite app_nil_r.
Qed.

Lemma clean_step_skip rooted s e : classify_elem e = ESkip -> clean_step rooted s e = s.
Proof. intro H. destruct s. unfold clean_step. now rewrite H. Qed.

Lemma clean_step_name rooted ups names e :
  classify_elem e = EName -> clean_step rooted (ups, names) e = (ups, e :: names).
Proof. intro H. unfold clean_step. now rewrite H. Qed.

Lemma clean_step_up rooted ups names e :
  classify_elem e = EUp ->
  clean_step rooted (ups, names) e
  = match names with
    | _ :: names' => (ups, names')
    | [] => if rooted then (ups, []) else (S ups, [])
    end.
Proof. intro H. unfold clean_step. now rewrite H. Qed.

Lemma classify_copy c p1 :
  is_slash c = false ->
  is_dot c && at_sep p1 = false ->
  match p1 with
  | c2 :: p2 => is_dot c && is_dot c2 && at_sep p2 = false
  | [] => True
  end ->
  classify_elem (c :: head_elem p1) = EName.
Proof.
  intros Hc Hd Hdd. destruct p1 as [|c2 p2].
  - simpl in Hd. rewrite andb_true_r in Hd. cbn. now rewrite Hd.
  - cbn [at_sep] in Hd. destruct (is_slash c2) eqn:Hc2.
    + rewrite andb_true_r in Hd. unfold head_elem. simpl. rewrite Hc2. cbn. now rewrite Hd.
    + rewrite head_elem_name by exact Hc2.
      destruct (head_elem p2) as [|c3 e] eqn:Eh.
      * rewrite (head_elem_nil_at_sep p2 Eh), andb_true_r in Hdd. cbn. now rewrite Hdd.
      * reflexivity.
Qed.

Lemma name_elem_copy c p1 :
  classify_elem (c :: head_elem p1) = EName ->
  forallb (fun c => negb (is_slash c)) (head_elem (c :: p1)) = true ->
  is_slash c = false ->
  name_elem (c :: head_elem p1) = true.
Proof.
  intros Hk Hs Hc. unfold name_elem. rewrite Hk. now rewrite head_elem_name in Hs.
Qed.

Lemma clean_loop_elems fuel :
  forall rooted p ups names out dd,
    length p <= fuel -> clean_inv rooted ups names out dd ->
    clean_loop fuel rooted p out dd
    = rev (render_elems rooted (fold_left (clean_step rooted) (split_elems p) (ups, names))).
Proof.
  induction fuel as [|f IH]; intros rooted p ups names out dd Hlen Hinv.
  - destruct p; [|simpl in Hlen; lia]. exact (proj1 Hinv).
  - destruct p as [|c p1]; [exact (proj1 Hinv)|].
    cbn [length] in Hlen. rewrite clean_loop_cons.
    destruct (is_slash c) eqn:Hc.
    { simpl split_elems. rewrite Hc. cbn [fold_left].
      rewrite clean_step_skip by reflexivity. apply IH; [lia|exact Hinv]. }
    rewrite (split_elems_name c p1 Hc). cbn [fold_left].
    destruct (is_dot c && at_sep p1) eqn:Hd.
    { apply andb_true_iff in Hd as [Hdot Hsep].
      rewrite (head_elem_at_sep p1 Hsep).
      rewrite clean_step_skip by (cbn; now rewrite Hdot).
      rewrite (IH rooted p1 ups names out dd) by (auto; lia).
      rewrite (at_sep_split p1 Hsep). cbn [fold_left tl].
      now rewrite clean_step_skip. }
    assert (Hcopy :
      match p1 with
      | c2 :: p2 => is_dot c && is_dot c2 && at_sep p2 = false
      | [] => True
      end ->
      (let out1 :=
         if (rooted && negb (length out =? 1)) || (negb rooted && negb (length out =? 0))
         then slash :: out else out in
       let (p', out2) := copy_elem (c :: p1) out1 in
       clean_loop f rooted p' out2 dd)
      = rev (render_elems rooted
               (fold_left (clean_step rooted) (tl (split_elems p1))
                  (clean_step rooted (ups, names) (c :: head_elem p1))))).
    { intro Hdd. cbv zeta.
      set (out1 := if (rooted && negb (length out =? 1))
                      || (negb rooted && negb (length out =? 0))
                   then slash :: out else out).
      destruct (copy_elem (c :: p1) out1) as [p' out2] eqn:Ecopy.
      destruct (copy_elem_split _ _ _ _ Ecopy) as (H1 & H2 & H3 & H4).
      pose proof (classify_copy c p1 Hc Hd Hdd) as Hk.
      pose proof (name_elem_copy c p1 Hk H4 Hc) as Hn.
      rewrite head_elem_name in H1, H3 by exact Hc.
      rewrite clean_step_name by exact Hk.
      rewrite (IH rooted p' ups ((c :: head_elem p1) :: names) out2 dd).
      - rewrite H2, split_elems_name by exact Hc. cbn [fold_left tl].
        now rewrite clean_step_skip.
      - apply (f_equal (@length _)) in H1. rewrite length_app in H1. cbn [length] in H1. lia.
      - rewrite H3. now apply clean_inv_push. }
    destruct p1 as [|c2 p2]; [now apply Hcopy|].
    destruct (is_dot c && is_dot c2 && at_sep p2) eqn:Hdd; [|now apply Hcopy].
    apply andb_true_iff in Hdd as [Hdd Hsep]. apply andb_true_iff in Hdd as [Hdot Hdot2].
    rewrite head_elem_name by (now apply is_dot_not_slash).
    rewrite (head_elem_at_sep p2 Hsep).
    rewrite split_elems_name by (now apply is_dot_not_slash). cbn [tl].
    assert (Hk : classify_elem [c; c2] = EUp) by (cbn; now rewrite Hdot, Hdot2).
    rewrite clean_step_up by exact Hk.
    cbn [length] in Hlen.
    destruct names as [|n names'].
    + pose proof (clean_inv_top rooted ups out dd Hinv) as Htop.
      rewrite Htop, Nat.ltb_irrefl.
      destruct rooted.
      * cbn [negb]. rewrite (IH true p2 ups [] out dd) by (auto; lia).
        rewrite (at_sep_split p2 Hsep). cbn [fold_left tl]. now rewrite clean_step_skip.
      * cbn [negb]. cbv zeta.
        pose proof (clean_inv_up ups out dd Hinv) as Hup. cbv zeta in Hup.
        rewrite Htop in Hup.
        rewrite (IH false p2 (S ups) [] _ _ ltac:(lia) Hup).
        rewrite (at_sep_split p2 Hsep). cbn [fold_left tl]. now rewrite clean_step_skip.
    + destruct (clean_inv_pop rooted ups n names' out dd Hinv) as [Hlt Hinv'].
      rewrite (proj2 (Nat.ltb_lt _ _) Hlt).
      rewrite (IH rooted p2 ups names' _ dd) by (auto; lia).
      rewrite (at_sep_split p2 Hsep). cbn [fold_left tl]. now rewrite clean_step_skip.
Qed.

Lemma clean_inv_init_rooted : clean_inv true 0 [] [slash] 1.
Proof. repeat split. Qed.

Lemma clean_inv_init : clean_inv false 0 [] [] 0.
Proof. repeat split. Qed.

Lemma render_elems_rooted_cons ups names :
  exists r, render_elems true (ups, names) = slash :: r.
Proof. eexists. reflexivity. Qed.

(** [path.Clean] is the element-level processing of its argument. *)
Lemma path_Clean_elems s :
  path_Clean s =
  match list_ascii_of_string s with
  | [] => "."%string
  | c :: _ =>
      match render_elems (is_slash c)
              (fold_left (clean_step (is_slash c)) (split_elems (list_ascii_of_string s)) (0, []))
      with
      | [] => "."%string
      | r => string_of_list_ascii r
      end
  end.
Proof.
  unfold path_Clean. destruct (list_ascii_of_string s) as [|c p1]; [reflexivity|].
  destruct (is_slash c) eqn:Hc.
  - rewrite (clean_loop_elems _ true p1 0 [] [slash] 1) by (auto using clean_inv_init_rooted; simpl; lia).
    simpl split_elems. rewrite Hc. cbn [fold_left]. rewrite clean_step_skip by reflexivity.
    destruct (render_elems_rooted_cons
                (fst (fold_left (clean_step true) (split_elems p1) (0, [])))
                (snd (fold_left (clean_step true) (split_elems p1) (0, [])))) as [r Er].
    rewrite <- surjective_pairing in Er. rewrite Er.
    cbn [rev]. destruct (rev r ++ [slash]) eqn:E.
    + destruct (rev r); discriminate.
    + rewrite <- E, rev_app_distr, rev_involutive. reflexivity.
  - rewrite (clean_loop_elems _ false (c :: p1) 0 [] [] 0) by (auto using clean_inv_init).
    destruct (render_elems false _) as [|x r] eqn:E; [reflexivity|].
    destruct (rev (x :: r)) eqn:E2.
    + apply (f_equal (@length _)) in E2. rewrite length_rev in E2. discriminate.
    + rewrite <- E2, rev_involutive. reflexivity.
Qed.

Lemma split_elems_no_slash p : Forall (fun e => no_slash e = true) (split_elems p).
Proof.
  induction p as [|c p IH]; [repeat constructor|].
  simpl. destruct (is_slash c) eqn:Hc; [now constructor|].
  destruct (split_elems p) as [|e es]; [repeat constructor; simpl; now rewrite Hc|].
  inversion IH; subst. constructor; auto. unfold no_slash in *. simpl. now rewrite Hc.
Qed.

Lemma fold_clean_step_inv rooted es :
  Forall (fun e => no_slash e = true) es ->
  forall ups names,
  forallb name_elem names = true -> (rooted = true -> ups = 0) ->
  forallb name_elem (snd (fold_left (clean_step rooted) es (ups, names))) = true
  /\ (rooted = true -> fst (fold_left (clean_step rooted) es (ups, names)) = 0).
Proof.
  induction es as [|e es IH]; intros Hes ups names Hn Hr; [now split|].
  inversion Hes as [|? ? He Hes']; subst.
  cbn [fold_left].
  destruct (classify_elem e) eqn:Ek.
  - rewrite clean_step_skip by exact Ek. now apply IH.
  - rewrite clean_step_up by exact Ek. destruct names as [|n names'].
    + destruct rooted; apply IH; auto. discriminate.
    + simpl in Hn. apply andb_true_iff in Hn as [_ Hn]. now apply IH.
  - rewrite clean_step_name by exact Ek.
    apply IH; auto. simpl. rewrite Hn, andb_true_r.
    unfold name_elem. rewrite Ek. exact He.
Qed.

Lemma name_elem_classify e : name_elem e = true -> classify_elem e = EName.
Proof. unfold name_elem. destruct (classify_elem e); congruence. Qed.

Lemma split_elems_app_slash e r :
  no_slash e = true -> split_elems (e ++ slash :: r) = e :: split_elems r.
Proof.
  induction e as [|a e IH]; intro H; [reflexivity|].
  unfold no_slash in H. simpl in H. apply andb_true_iff in H as [Ha H].
  apply negb_true_iff in Ha. simpl. rewrite Ha, IH by exact H. reflexivity.
Qed.

Lemma split_elems_no_slash_single e : no_slash e = true -> split_elems e = [e].
Proof.
  induction e as [|a e IH]; intro H; [reflexivity|].
  unfold no_slash in H. simpl in H. apply andb_true_iff in H as [Ha H].
  apply negb_true_iff in Ha. simpl. rewrite Ha, IH by exact H. reflexivity.
Qed.

Lemma split_join_elems es :
  es <> [] -> Forall (fun e => no_slash e = true) es -> split_elems (join_elems es) = es.
Proof.
  induction es as [|e es IH]; intros Hne HF; [contradiction|].
  inversion HF; subst. destruct es as [|e2 es].
  - now apply split_elems_no_slash_single.
  - change (join_elems (e :: e2 :: es)) with (e ++ slash :: join_elems (e2 :: es)).
    rewrite split_elems_app_slash by assumption. f_equal. apply IH; auto. discriminate.
Qed.

Lemma fold_clean_names rooted names ups st :
  forallb name_elem names = true ->
  fold_left (clean_step rooted) names (ups, st) = (ups, rev names ++ st).
Proof.
  revert st. induction names as [|n names IH]; intros st H; [reflexivity|].
  simpl in H. apply andb_true_iff in H as [Hn H].
  cbn [fold_left]. rewrite clean_step_name by (now apply name_elem_classify).
  rewrite IH by exact H. simpl. now rewrite <- app_assoc.
Qed.

Lemma fold_clean_dotdots k ups :
  fold_left (clean_step false) (repeat dotdot k) (ups, []) = (k + ups, []).
Proof.
  revert ups. induction k as [|k IH]; intro ups; [reflexivity|].
  cbn [repeat fold_left]. rewrite clean_step_up by reflexivity.
  rewrite IH. f_equal. lia.
Qed.

Lemma name_elems_no_slash names :
  forallb name_elem names = true -> Forall (fun e => no_slash e = true) names.
Proof.
  induction names as [|n names IH]; simpl; [constructor|].
  rewrite andb_true_iff. intros [Hn H]. constructor; auto.
  unfold name_elem, no_slash in *. destruct (classify_elem n); congruence.
Qed.

Lemma forallb_rev {A} (f : A -> bool) l : forallb f (rev l) = forallb f l.
Proof.
  induction l as [|a l IH]; [reflexivity|]. simpl. rewrite forallb_app, IH. simpl.
  now rewrite andb_true_r, andb_comm.
Qed.

Lemma path_Clean_shape s :
  path_Clean s = "."%string
  \/ (exists names, forallb name_elem names = true
        /\ path_Clean s = string_of_list_ascii (slash :: join_elems names))
  \/ (exists ups names, forallb name_elem names = true /\ (0 < ups \/ names <> [])
        /\ path_Clean s = string_of_list_ascii (join_elems (repeat dotdot ups ++ names))).
Proof.
  rewrite path_Clean_elems. destruct (list_ascii_of_string s) as [|c p]; [now left|].
  destruct (fold_clean_step_inv (is_slash c) (split_elems (c :: p))
              (split_elems_no_slash _) 0 [] eq_refl (fun _ => eq_refl)) as [Hn Hr].
  destruct (fold_left (clean_step (is_slash c)) (split_elems (c :: p)) (0, []))
    as [ups st]; cbn [fst snd] in *.
  destruct (is_slash c).
  - right; left. exists (rev st). split; [now rewrite forallb_rev|]. reflexivity.
  - cbn [render_elems]. destruct (join_elems (repeat dotdot ups ++ rev st)) eqn:E; [now left|].
    right; right. exists ups, (rev st). split; [now rewrite forallb_rev|]. split; [|now rewrite E].
    destruct ups; [|left; lia]. right. intro Hst. rewrite Hst in E. discriminate.
Qed.

Lemma join_elems_head e0 es :
  no_slash e0 = true -> e0 <> [] ->
  exists a r, join_elems (e0 :: es) = a :: r /\ is_slash a = false.
Proof.
  intros Hs Hne. destruct e0 as [|a e0]; [contradiction|].
  unfold no_slash in Hs. simpl in Hs. apply andb_true_iff in Hs as [Ha _].
  apply negb_true_iff in Ha.
  destruct es; simpl; eauto.
Qed.

Lemma path_Clean_clean s : path_Clean (path_Clean s) = path_Clean s.
Proof.
  destruct (path_Clean_shape s) as [H|[(names & Hn & H)|(ups & names & Hn & Hne & H)]];
    rewrite H.
  - reflexivity.
  - rewrite path_Clean_elems, list_ascii_of_string_of_list_ascii.
    change (is_slash slash) with true. simpl split_elems. change (is_slash slash) with true.
    cbn [fold_left]. rewrite clean_step_skip by reflexivity.
    destruct names as [|n names'].
    + reflexivity.
    + rewrite split_join_elems by (auto using name_elems_no_slash; discriminate).
      rewrite fold_clean_names by exact Hn. cbn [render_elems].
      now rewrite app_nil_r, rev_involutive.
  - set (E := repeat dotdot ups ++ names).
    assert (HF : Forall (fun e => no_slash e = true) E).
    { apply Forall_app; split; [|now apply name_elems_no_slash].
      apply Forall_forall. intros x Hx. apply repeat_spec in Hx. now subst. }
    assert (Hne' : Forall (fun e => e <> []) E).
    { apply Forall_app; split; [|now apply name_elems_nonempty].
      apply Forall_forall. intros x Hx. apply repeat_spec in Hx. subst. discriminate. }
    assert (HE : E <> []).
    { unfold E. destruct ups; [|discriminate]. destruct Hne as [Hl|Hl]; [lia|exact Hl]. }
    destruct E as [|e0 es] eqn:EE; [contradiction|].
    inversion HF; inversion Hne'; subst.
    destruct (join_elems_head e0 es) as (a & r & Ej & Ha); auto.
    rewrite path_Clean_elems, list_ascii_of_string_of_list_ascii, Ej, Ha, <- Ej, <- EE.
    rewrite split_join_elems by (rewrite EE; auto; discriminate).
    unfold E. rewrite fold_left_app, fold_clean_dotdots, fold_clean_names by exact Hn.
    cbn [render_elems]. rewrite app_nil_r, rev_involutive, Nat.add_0_r.
    fold E. rewrite EE, Ej. reflexivity.
Qed.

(** X1: [path.Clean] returns ".", or "/" followed by name elements joined by
    single slashes, or a non-empty run of ".." elements and name elements
    joined by single slashes; a name element is non-empty, has no slash
    and is neither "." nor "..". *)
Theorem path_Clean_canonical s :
  path_Clean s = "."%string
  \/ (exists names, forallb name_elem names = true
        /\ path_Clean s = string_of_list_ascii (slash :: join_elems names))
  \/ (exists ups names, forallb name_elem names = true /\ (0 < ups \/ names <> [])
        /\ path_Clean s = string_of_list_ascii (join_elems (repeat dotdot ups ++ names))).
Proof. exact (path_Clean_shape s). Qed.

(** X2: [path.Clean] is idempotent: cleaning a cleaned path changes nothing. *)
Theorem path_Clean_idempotent s : path_Clean (path_Clean s) = path_Clean s.
Proof. exact (path_Clean_clean s). Qed.




(* ------------------------------------------------------------------ *)
(** *** doApply's in-place guard *)

Lemma doApply_refusal patch target output w :
  path_Clean (if String.eqb output EmptyString then target else output) = path_Clean target ->
  doApply patch target output false w = (Died, refused_world w (path_Clean target)).
Proof.
  intro H. unfold doApply. rewrite H, String.eqb_refl. reflexivity.
Qed.

Lemma ApplyPatch_world targetPath outputPath inplace d w :
  trace (snd (ApplyPatch targetPath outputPath inplace d w)) = trace w
  /\ console (snd (ApplyPatch targetPath outputPath inplace d w)) = console w.
Proof.
  unfold ApplyPatch, bind, lift, ret, fail, get_node, put_node.
  destruct (decode_patch d); [|now split].
  destruct (apply_entries _ _ _ _); now split.
Qed.

Lemma doApply_inplace_proceeds patch target output w :
  path_Clean (if String.eqb output EmptyString then target else output) = path_Clean target ->
  exists rest,
    trace (snd (doApply patch target output true w)) = trace w ++ EvOpen patch :: rest
    /\ exists more,
         console (snd (doApply patch target output true w))
         = console w ++ LOp "Patching %s" (path_Clean target) :: more.
Proof.
  intro H. unfold doApply. rewrite H, String.eqb_refl.
  cbv [negb bind ret comm_Opf say read_file log_event get_node fail].
  cbn [fs console trace tmpSeq].
  destruct (fs_lookup (fs w) patch) as [[t|d]|]; cbn [fs console trace tmpSeq].
  - exists []. split; [|exists []]; now rewrite <- ?app_assoc.
  - destruct (ApplyPatch_world (path_Clean target) (path_Clean target) true d
                (mkWorld (fs w) (console w ++ [LOp "Patching %s" (path_Clean target)])
                   (trace w ++ [EvOpen patch]) (tmpSeq w))) as [Ht Hc].
    destruct (ApplyPatch _ _ _ _ _) as [o w'] eqn:E.
    cbn [snd] in *. destruct o; cbn [snd];
      exists []; split; try exists []; rewrite ?Ht, ?Hc; cbn [trace console];
      now rewrite <- ?app_assoc.
  - exists []. split; [|exists []]; now rewrite <- ?app_assoc.
Qed.

(** C3: when the cleaned output path (the target when [output] is empty)
    equals the cleaned target path and [inplace] is false, [doApply] dies
    with the refusal message before opening the patch or writing anything:
    the file system and the I/O trace are unchanged.  With [inplace] set,
    the same call goes on: it reports "Patching" and opens the patch. *)
Theorem doApply_inplace_guard patch target output w :
  path_Clean (if String.eqb output EmptyString then target else output) = path_Clean target ->
  (doApply patch target output false w = (Died, refused_world w (path_Clean target))
   /\ fs (refused_world w (path_Clean target)) = fs w
   /\ trace (refused_world w (path_Clean target)) = trace w)
  /\ exists rest,
       trace (snd (doApply patch target output true w)) = trace w ++ EvOpen patch :: rest.
Proof.
  intro H. split.
  - split; [now apply doApply_refusal|]. split; reflexivity.
  - destruct (doApply_inplace_proceeds patch target output w H) as (rest & Hr & _).
    now exists rest.
Qed.

(** C9: an empty output argument makes the output the target, so without
    [inplace] the call is refused; both paths are cleaned before they are
    compared, so any spelling with the same [path.Clean] is refused too, in
    particular one with a trailing slash or with redundant "." and "/". *)
Theorem doApply_empty_output_and_spellings patch target w :
  doApply patch target EmptyString false w = (Died, refused_world w (path_Clean target))
  /\ (forall output, path_Clean output = path_Clean target ->
        doApply patch target output false w = (Died, refused_world w (path_Clean target)))
  /\ (target <> EmptyString ->
        doApply patch target (target ++ "/") false w
        = (Died, refused_world w (path_Clean target)))
  /\ doApply patch "build/app" "./build//app/." false w
     = (Died, refused_world w "build/app").
Proof.
  split; [|split; [|split]].
  - apply doApply_refusal. reflexivity.
  - intros output Ho. apply doApply_refusal.
    destruct (String.eqb output EmptyString); auto.
  - intro Ht. apply doApply_refusal.
    destruct (String.eqb (target ++ "/") EmptyString) eqn:E.
    + reflexivity.
    + now apply path_Clean_trailing_slash.
  - apply (doApply_refusal patch "build/app" "./build//app/." w). reflexivity.
Qed.

(** C10: [doDiff] never reads its [brotliQuality] argument: two calls that
    differ only there behave identically (same outcome, same files, same
    console and I/O trace); the compression quality it uses comes from
    the int32 conversion of the quality flag: two flag records agreeing on it and on
    [verify] give identical runs. *)
Theorem doDiff_ignores_brotliQuality args target source patch q1 q2 w :
  doDiff args target source patch q1 w = doDiff args target source patch q2 w
  /\ diff args target source patch q1 w = diff args target source patch q2 w
  /\ (forall args',
        to_int32 (diffArgs_quality args') = to_int32 (diffArgs_quality args) ->
        diffArgs_verify args' = diffArgs_verify args ->
        doDiff args' target source patch q1 w = doDiff args target source patch q2 w).
Proof.
  split; [reflexivity|split; [reflexivity|]].
  intros args' Hq Hv. unfold doDiff. rewrite Hq, Hv. reflexivity.
Qed.

(* ------------------------------------------------------------------ *)
(** *** Read-only computations *)

Lemma world_eta (w : World) : w = mkWorld (fs w) (console w) (trace w) (tmpSeq w).
Proof. now destruct w. Qed.


Lemma bind_Done {A B} (m : M A) (k : A -> M B) w a w1 :
  m w = (Done a, w1) -> bind m k w = k a w1.
Proof. intro E. unfold bind. now rewrite E. Qed.

Lemma quiet_frame {A} (m : M A) : quiet m -> frame m.
Proof. intros H w. destruct (H w) as [tr E]. exists [], tr. now rewrite app_nil_r. Qed.

Lemma quiet_ret {A} (a : A) : quiet (ret a).
Proof. intro w. exists []. simpl. rewrite app_nil_r. apply world_eta. Qed.

Lemma quiet_fail {A} (e : Error) : quiet (@fail A e).
Proof. intro w. exists []. simpl. rewrite app_nil_r. apply world_eta. Qed.

Lemma quiet_log_event ev : quiet (log_event ev).
Proof. intro w. exists [ev]. reflexivity. Qed.

Lemma quiet_get_node p : quiet (get_node p).
Proof. intro w. exists []. simpl. rewrite app_nil_r. apply world_eta. Qed.

Lemma quiet_bind {A B} (m : M A) (k : A -> M B) :
  quiet m -> (forall a, quiet (k a)) -> quiet (bind m k).
Proof.
  intros Hm Hk w. unfold bind.
  destruct (Hm w) as [tr1 E1]. destruct (m w) as [[a|e|] w1]; cbn [snd] in *; subst w1.
  - destruct (Hk a (mkWorld (fs w) (console w) (trace w ++ tr1) (tmpSeq w))) as [tr2 E2].
    rewrite E2. exists (tr1 ++ tr2). cbn. now rewrite app_assoc.
  - now exists tr1.
  - now exists tr1.
Qed.

Lemma frame_bind {A B} (m : M A) (k : A -> M B) :
  frame m -> (forall a, frame (k a)) -> frame (bind m k).
Proof.
  intros Hm Hk w. unfold bind.
  destruct (Hm w) as (cs1 & tr1 & E1).
  destruct (m w) as [[a|e|] w1]; cbn [snd] in *; subst w1.
  - destruct (Hk a (mkWorld (fs w) (console w ++ cs1) (trace w ++ tr1) (tmpSeq w)))
      as (cs2 & tr2 & E2).
    rewrite E2. exists (cs1 ++ cs2), (tr1 ++ tr2). cbn. now rewrite !app_assoc.
  - now exists cs1, tr1.
  - now exists cs1, tr1.
Qed.

Lemma frame_say l : frame (say l).
Proof. intro w. exists [l], []. simpl. now rewrite app_nil_r. Qed.

Lemma frame_comm_Dief {A} fmt args : frame (@comm_Dief A fmt args).
Proof.
  unfold comm_Dief. apply frame_bind; [apply frame_say|].
  intros _ w. exists [], []. simpl. rewrite !app_nil_r. apply world_eta.
Qed.

Lemma fs_det_ret {A} (a : A) : fs_det (ret a).
Proof. now intros w w' _. Qed.

Lemma fs_det_fail {A} (e : Error) : fs_det (@fail A e).
Proof. now intros w w' _. Qed.

Lemma fs_det_log_event ev : fs_det (log_event ev).
Proof. now intros w w' _. Qed.

Lemma fs_det_get_node p : fs_det (get_node p).
Proof. intros w w' H. simpl. now rewrite H. Qed.

Lemma fs_det_bind {A B} (m : M A) (k : A -> M B) :
  quiet m -> fs_det m -> (forall a, fs_det (k a)) -> fs_det (bind m k).
Proof.
  intros Hq Hm Hk w w' H. unfold bind.
  pose proof (Hm w w' H) as Ho.
  destruct (Hq w) as [tr1 E1]. destruct (Hq w') as [tr1' E1'].
  destruct (m w) as [o w1], (m w') as [o' w1']. cbn [fst snd] in *. subst o' w1 w1'.
  destruct o as [a|e|]; auto. apply Hk. simpl. exact H.
Qed.

Ltac world_tac :=
  repeat first
    [ progress cbv beta
    | apply quiet_ret | apply quiet_fail | apply quiet_log_event | apply quiet_get_node
    | apply fs_det_ret | apply fs_det_fail | apply fs_det_log_event | apply fs_det_get_node
    | match goal with
      | |- quiet (bind _ _) => apply quiet_bind
      | |- fs_det (bind _ _) => apply fs_det_bind
      | |- quiet (match ?x with _ => _ end) => destruct x
      | |- fs_det (match ?x with _ => _ end) => destruct x
      | |- forall _ : ?T, _ =>
          lazymatch T with World => fail | _ => intro end
      end ].

Lemma read_file_quiet p : quiet (read_file p) /\ fs_det (read_file p).
Proof. unfold read_file. split; world_tac. Qed.

Lemma read_tree_file_quiet root p :
  quiet (read_tree_file root p) /\ fs_det (read_tree_file root p).
Proof. unfold read_tree_file. split; world_tac. Qed.

Lemma lift_quiet {A} (r : res A) : quiet (lift r) /\ fs_det (lift r).
Proof. unfold lift. destruct r; split; world_tac. Qed.

Lemma ReadSignatureFile_quiet p :
  quiet (ReadSignatureFile p) /\ fs_det (ReadSignatureFile p).
Proof.
  unfold ReadSignatureFile. destruct (read_file_quiet p).
  split; world_tac; try apply lift_quiet; auto.
Qed.

Lemma fold_hashes_quiet {A} (step : A -> BlockHash -> M A) :
  (forall a h, quiet (step a h) /\ fs_det (step a h)) ->
  forall hs acc, quiet (fold_hashes step hs acc) /\ fs_det (fold_hashes step hs acc).
Proof.
  intros Hs hs. induction hs as [|h hs IH]; intro acc; simpl; split; world_tac;
    first [ apply (proj1 (Hs _ _)) | apply (proj2 (Hs _ _))
          | apply (proj1 (IH _)) | apply (proj2 (IH _)) ].
Qed.

Lemma signature_to_writer_quiet {A} (step : A -> BlockHash -> M A) :
  (forall a h, quiet (step a h) /\ fs_det (step a h)) ->
  forall c fi root acc,
    quiet (signature_to_writer fi c root step acc)
    /\ fs_det (signature_to_writer fi c root step acc).
Proof.
  intros Hs c. induction c as [|e c IH]; intros fi root acc; simpl.
  - split; world_tac.
  - destruct (is_file e); [|apply IH].
    destruct (read_tree_file_quiet root (e_path e)).
    pose proof (fold_hashes_quiet step Hs) as Hf.
    split; world_tac; auto;
      first [ apply (proj1 (Hf _ _)) | apply (proj2 (Hf _ _))
            | apply (proj1 (IH _ _ _)) | apply (proj2 (IH _ _ _)) ].
Qed.

Lemma ComputeSignature_quiet c root :
  quiet (ComputeSignature c root) /\ fs_det (ComputeSignature c root).
Proof.
  apply signature_to_writer_quiet. intros. split; world_tac.
Qed.

Lemma doVerify_frame signature output : frame (doVerify signature output).
Proof.
  unfold doVerify.
  apply frame_bind; [apply frame_say|intros _].
  apply frame_bind; [apply quiet_frame, ReadSignatureFile_quiet|intro s].
  apply frame_bind; [apply quiet_frame, ComputeSignature_quiet|intro hashes].
  destruct (CompareHashes _ _).
  - apply frame_bind; [apply frame_say|intros _]. apply frame_comm_Dief.
  - apply quiet_frame, quiet_ret.
Qed.

(* ------------------------------------------------------------------ *)
(** *** CompareHashes *)







(* ------------------------------------------------------------------ *)
(** *** The wire codec round-trips *)

Lemma firstn_length_app {A} (b r : list A) : firstn (length b) (b ++ r) = b.
Proof. induction b; simpl; congruence. Qed.

Lemma skipn_length_app {A} (b r : list A) : skipn (length b) (b ++ r) = r.
Proof. induction b; simpl; auto. Qed.

Lemma get_put_nat n r : fits64 n = true -> get_nat (put_nat n ++ r) = Some (n, r).
Proof.
  unfold fits64, get_nat, put_nat. intro H. apply N.ltb_lt in H.
  rewrite get_put_uint by (simpl; lia). now rewrite Nat2N.id.
Qed.

Lemma get_put_bytes b r :
  fits64 (length b) = true -> get_bytes (put_bytes b ++ r) = Some (b, r).
Proof.
  intro H. unfold get_bytes, put_bytes. rewrite <- app_assoc, get_put_nat by exact H.
  rewrite length_app, (proj2 (Nat.leb_le _ _)) by lia.
  now rewrite firstn_length_app, skipn_length_app.
Qed.

Lemma get_put_string s r :
  fits64 (length (list_byte_of_string s)) = true ->
  get_string (put_string s ++ r) = Some (s, r).
Proof.
  intro H. unfold get_string, put_string. rewrite get_put_bytes by exact H.
  now rewrite string_of_list_byte_of_string.
Qed.

Lemma kind_of_tag_kind_tag k : kind_of_tag (kind_tag k) = Some k.
Proof. now destruct k. Qed.

Lemma alg_of_tag_alg_tag a : alg_of_tag (alg_tag a) = Some a.
Proof. now destruct a. Qed.

Lemma get_put_entry e r : wf_entry e = true -> get_entry (put_entry e ++ r) = Some (e, r).
Proof.
  unfold wf_entry. rewrite !andb_true_iff. intros [[Hp Hs] Hl].
  unfold put_entry. cbn [app]. rewrite <- !app_assoc.
  unfold get_entry. rewrite kind_of_tag_kind_tag, get_put_string by exact Hp.
  rewrite get_put_nat by exact Hs. rewrite get_put_string by exact Hl.
  now destruct e.
Qed.

Lemma get_put_entries c r :
  forallb wf_entry c = true ->
  get_entries (length c) (concat (map put_entry c) ++ r) = Some (c, r).
Proof.
  induction c as [|e c IH]; intro H; [reflexivity|].
  simpl in H. apply andb_true_iff in H as [He Hc].
  cbn [length map concat get_entries]. rewrite <- app_assoc, get_put_entry by exact He.
  now rewrite IH.
Qed.

Lemma get_put_container c r :
  fits64 (length c) = true -> forallb wf_entry c = true ->
  get_container (put_container c ++ r) = Some (c, r).
Proof.
  intros Hn Hc. unfold get_container, put_container.
  rewrite <- app_assoc, get_put_nat by exact Hn. now apply get_put_entries.
Qed.

Lemma int32_of_uint32_mod q :
  (- 2 ^ 31 <= q < 2 ^ 31)%Z -> int32_of_uint32 (Z.to_N (q mod 2 ^ 32)) = q.
Proof.
  intro Hq. unfold int32_of_uint32.
  destruct (Z.le_gt_cases 0 q) as [Hp|Hn].
  - rewrite Z.mod_small by lia.
    rewrite (proj2 (N.ltb_lt _ _)) by lia. lia.
  - replace (q mod 2 ^ 32)%Z with (q + 2 ^ 32)%Z.
    + rewrite (proj2 (N.ltb_ge _ _)) by lia. lia.
    + apply (Z.mod_unique q (2 ^ 32) (-1)); lia.
Qed.

Lemma get_put_header cs r :
  (- 2 ^ 31 <= Quality cs < 2 ^ 31)%Z ->
  get_header (put_header cs ++ r) = Some ((alg_tag (Algorithm cs), Quality cs), r).
Proof.
  intro Hq. unfold get_header, put_header. cbn [app].
  rewrite get_put_uint.
  - now rewrite int32_of_uint32_mod.
  - pose proof (Z.mod_pos_bound (Quality cs) (2 ^ 32) ltac:(lia)). simpl. lia.
Qed.

Lemma get_put_blockhash h r :
  wf_blockhash h = true ->
  get_blockhash (put_blockhash h ++ r) = Some ((WeakHash h, StrongHash h), r).
Proof.
  unfold wf_blockhash. rewrite andb_true_iff. intros [Hw Hs]. apply N.ltb_lt in Hw.
  unfold get_blockhash, put_blockhash. rewrite <- app_assoc.
  rewrite get_put_uint by (simpl; lia). now rewrite get_put_bytes.
Qed.

Lemma put_blockhash_cons h : exists b l, put_blockhash h = b :: l.
Proof. unfold put_blockhash. cbn [put_uint app]. eauto. Qed.

Lemma length_concat_put_blockhash hs : length hs <= length (concat (map put_blockhash hs)).
Proof.
  induction hs as [|h hs IH]; cbn [map concat length]; [lia|].
  destruct (put_blockhash_cons h) as (b & l & E). rewrite E, length_app.
  cbn [length]. lia.
Qed.

Lemma get_put_blockhashes fuel hs :
  forallb wf_blockhash hs = true -> length hs <= fuel ->
  get_blockhashes fuel (concat (map put_blockhash hs))
  = Some (map (fun h => (WeakHash h, StrongHash h)) hs).
Proof.
  revert fuel. induction hs as [|h hs IH]; intros fuel Hwf Hf.
  - destruct fuel; reflexivity.
  - simpl in Hwf. apply andb_true_iff in Hwf as [Hh Hhs].
    destruct fuel as [|fuel]; [simpl in Hf; lia|].
    cbn [map concat].
    destruct (put_blockhash_cons h) as (b & l & E).
    pose proof (get_put_blockhash h (concat (map put_blockhash hs)) Hh) as G.
    rewrite E in *. cbn [app get_blockhashes]. rewrite <- E in *. cbn [app] in G.
    change (b :: l ++ concat (map put_blockhash hs))
      with ((b :: l) ++ concat (map put_blockhash hs)).
    rewrite <- E, G, IH by (auto; simpl in Hf; lia). reflexivity.
Qed.

Lemma rebuild_hashes hs :
  map (fun '((fi, k), (wk, st)) => mkBlockHash fi k wk st)
    (combine (map (fun h => (FileIndex h, BlockIndex h)) hs)
             (map (fun h => (WeakHash h, StrongHash h)) hs))
  = hs.
Proof. induction hs as [|[] hs IH]; simpl; congruence. Qed.

(** C7: decoding the stream [encode_signature s] gives back [s] (its
    container, its block hashes and its compression settings) for every
    well-formed signature [s], when the stream compressor it names is
    lossless. *)
Theorem signature_roundtrip s :
  (forall x, decompress (sig_compression s) (compress (sig_compression s) x) = Some x) ->
  wf_signature s ->
  decode_signature (encode_signature s) = Ok s.
Proof.
  intros Hcodec (Hq & Hn & He & Hh & Hlay).
  destruct s as [c hs cs]. cbn [sig_container sig_hashes sig_compression] in *.
  unfold decode_signature, encode_signature. cbn [sig_container sig_hashes sig_compression].
  unfold put_magic. rewrite get_put_uint by (vm_compute; reflexivity).
  rewrite N.eqb_refl. cbn [negb].
  rewrite get_put_header by exact Hq. rewrite alg_of_tag_alg_tag.
  replace (mkCompression (Algorithm cs) (Quality cs)) with cs by now destruct cs.
  rewrite Hcodec, get_put_container by assumption.
  rewrite get_put_blockhashes by (auto using length_concat_put_blockhash).
  rewrite length_map, <- Hlay, length_map, Nat.eqb_refl.
  now rewrite rebuild_hashes.
Qed.

(* ------------------------------------------------------------------ *)
(** *** The signature stream written by doSign *)

Lemma fs_lookup_remove f p q :
  fs_lookup (fs_remove f p) q
  = if String.eqb (path_Clean p) (path_Clean q) then None else fs_lookup f q.
Proof.
  induction f as [|[k n] f IH]; simpl.
  - now destruct (String.eqb (path_Clean p) (path_Clean q)).
  - destruct (String.eqb k (path_Clean p)) eqn:E1.
    + apply String.eqb_eq in E1. subst k. rewrite IH.
      now destruct (String.eqb (path_Clean p) (path_Clean q)).
    + simpl. destruct (String.eqb k (path_Clean q)) eqn:E2.
      * apply String.eqb_eq in E2. subst k.
        rewrite String.eqb_sym in E1. now rewrite E1.
      * now rewrite IH.
Qed.






(* ------------------------------------------------------------------ *)
(** *** Which file-system entries the operations write *)

Lemma bind_Done_inv {A B} (m : M A) (k : A -> M B) w b w2 :
  bind m k w = (Done b, w2) -> exists a w1, m w = (Done a, w1) /\ k a w1 = (Done b, w2).
Proof.
  unfold bind. destruct (m w) as [[a|e|] w1]; intro H; try discriminate. eauto.
Qed.


















(** X4: when the call is not refused and there is no regular file at
    the patch path, [doApply] reports "Patching" with the cleaned output,
    fails on opening the patch with an I/O error, and changes no file. *)
Theorem doApply_missing_patch patch target output inplace w :
  (String.eqb (path_Clean (if String.eqb output EmptyString then target else output))
     (path_Clean target) = false \/ inplace = true) ->
  (forall d, fs_lookup (fs w) patch <> Some (NFile d)) ->
  doApply patch target output inplace w
  = (Failed (IOError patch),
     mkWorld (fs w)
       (console w ++ [LOp "Patching %s"
                        (path_Clean (if String.eqb output EmptyString then target else output))])
       (trace w ++ [EvOpen patch]) (tmpSeq w)).
Proof.
  intros Hg Hp. unfold doApply. cbv zeta.
  remember (if String.eqb output EmptyString then target else output) as o.
  unfold bind at 1.
  replace ((if String.eqb (path_Clean o) (path_Clean target)
            then if negb inplace
                 then comm_Dief "Refusing to destructively patch %s without --inplace"
                        [AStr (path_Clean o)]
                 else ret tt
            else ret tt) w) with (@Done unit tt, w)
    by (destruct Hg as [Hg|Hg]; rewrite Hg;
        [|destruct (String.eqb (path_Clean o) (path_Clean target))]; reflexivity).
  cbv [bind comm_Opf say read_file log_event get_node]. cbv beta iota zeta.
  cbn [fs console trace tmpSeq].
  destruct (fs_lookup (fs w) patch) as [[|]|] eqn:E; try reflexivity.
  exfalso. eapply Hp. reflexivity.
Qed.






Lemma walk_at_quiet p : quiet (walk_at p).
Proof. unfold walk_at. world_tac. Qed.



(** X6: when [output] is not a directory, [doSign] fails on walking it
    with an I/O error before creating the signature file: nothing is
    written; [sign] then dies with that error. *)
Theorem doSign_no_tree output signature w :
  (forall t, fs_lookup (fs w) output <> Some (NDir t)) ->
  doSign output signature w
  = (Failed (IOError output),
     mkWorld (fs w) (console w ++ [LOp "Creating signature for %s" output])
       (trace w ++ [EvWalk output]) (tmpSeq w))
  /\ sign output signature w
     = (Died,
        mkWorld (fs w) (console w ++ [LOp "Creating signature for %s" output;
                                      LDie "%s" [AErr (IOError output)]])
          (trace w ++ [EvWalk output]) (tmpSeq w)).
Proof.
  intro Ht.
  assert (E : doSign output signature w
              = (Failed (IOError output),
                 mkWorld (fs w) (console w ++ [LOp "Creating signature for %s" output])
                   (trace w ++ [EvWalk output]) (tmpSeq w))).
  { unfold doSign. cbv [bind comm_Opf say walk_at log_event get_node]. cbv beta iota zeta.
    cbn [fs console trace tmpSeq].
    destruct (fs_lookup (fs w) output) as [[t|d]|] eqn:Eo; try reflexivity.
    exfalso. exact (Ht t eq_refl). }
  split; [exact E|]. unfold sign, must. rewrite E.
  cbv [comm_Dief bind say]. cbn [fs console trace tmpSeq]. now rewrite <- app_assoc.
Qed.

(** X7: when [output] is a directory but [signature] names a
    directory, [doSign] fails on creating the signature file with an I/O
    error and writes nothing. *)
Theorem doSign_signature_is_dir output signature w t t' :
  fs_lookup (fs w) output = Some (NDir t) ->
  fs_lookup (fs w) signature = Some (NDir t') ->
  doSign output signature w
  = (Failed (IOError signature),
     mkWorld (fs w) (console w ++ [LOp "Creating signature for %s" output])
       (trace w ++ [EvWalk output; EvCreate signature]) (tmpSeq w)).
Proof.
  intros Ho Hs. unfold doSign.
  cbv [bind comm_Opf say walk_at log_event get_node os_Create ret fail]. cbv beta iota zeta.
  cbn [fs console trace tmpSeq]. rewrite Ho. cbv beta iota zeta.
  cbn [fs console trace tmpSeq]. rewrite Hs. now rewrite <- app_assoc.
Qed.

(* ------------------------------------------------------------------ *)
(** *** Signing a tree, then verifying it *)






















(* ------------------------------------------------------------------ *)
(** *** doDiff *)

Lemma os_Lstat_IsDir_quiet p : quiet (os_Lstat_IsDir p).
Proof. unfold os_Lstat_IsDir. world_tac. Qed.

Lemma doDiff_target_frame target : frame (doDiff_target target).
Proof.
  unfold doDiff_target. destruct (String.eqb target "/dev/null");
    [apply quiet_frame, quiet_ret|].
  apply frame_bind; [apply quiet_frame, os_Lstat_IsDir_quiet|intros []].
  - apply frame_bind; [apply frame_say|intros _].
    apply frame_bind; [apply quiet_frame, walk_at_quiet|intro c].
    apply frame_bind; [apply quiet_frame, ComputeSignature_quiet|intro hs].
    apply quiet_frame, quiet_ret.
  - apply frame_bind; [apply frame_say|intros _].
    apply frame_bind; [apply quiet_frame, ReadSignatureFile_quiet|intro s].
    apply quiet_frame, quiet_ret.
Qed.

Lemma doDiff_source_quiet source : quiet (doDiff_source source).
Proof.
  unfold doDiff_source. destruct (String.eqb source "/dev/null");
    [apply quiet_ret|apply walk_at_quiet].
Qed.

Lemma read_container_files_quiet c root : quiet (read_container_files c root).
Proof.
  induction c as [|e c IH]; cbn [read_container_files]; [apply quiet_ret|].
  destruct (is_file e); [|exact IH].
  apply quiet_bind; [apply read_tree_file_quiet|intro d].
  apply quiet_bind; [exact IH|intro rest]. apply quiet_ret.
Qed.








(** X11: when [target] is not "/dev/null" and nothing exists at it,
    [doDiff] fails on [os.Lstat] with an I/O error before anything else:
    it reports nothing and writes nothing. *)
Theorem doDiff_missing_target args target source patch bq w :
  target <> "/dev/null"%string ->
  fs_lookup (fs w) target = None ->
  doDiff args target source patch bq w
  = (Failed (IOError target),
     mkWorld (fs w) (console w) (trace w ++ [EvLstat target]) (tmpSeq w)).
Proof.
  intros Hn Hl. unfold doDiff, doDiff_target.
  rewrite (proj2 (String.eqb_neq _ _) Hn).
  cbv [bind os_Lstat_IsDir log_event get_node fail]. cbn [fs console trace tmpSeq].
  now rewrite Hl.
Qed.

(** X12: when [target] is a regular file that does not decode as a
    signature, [doDiff] reports "Reading signature from", fails with the
    decoding error and writes nothing. *)
Theorem doDiff_bad_signature args target source patch bq w d e :
  target <> "/dev/null"%string ->
  fs_lookup (fs w) target = Some (NFile d) ->
  decode_signature d = Err e ->
  doDiff args target source patch bq w
  = (Failed e,
     mkWorld (fs w) (console w ++ [LOp "Reading signature from %s" target])
       (trace w ++ [EvLstat target; EvOpen target]) (tmpSeq w)).
Proof.
  intros Hn Hl Hd. unfold doDiff, doDiff_target.
  rewrite (proj2 (String.eqb_neq _ _) Hn).
  cbv [bind os_Lstat_IsDir log_event get_node fail ret comm_Opf say ReadSignatureFile
       read_file lift]. cbn [fs console trace tmpSeq].
  rewrite Hl. cbv beta iota. cbn [fs console trace tmpSeq]. rewrite Hl, Hd.
  now rewrite <- app_assoc.
Qed.

(** X13: when the target side succeeds but [source] is neither
    "/dev/null" nor a directory, [doDiff] fails on walking the source with
    an I/O error; whatever the target side does, no file is written and
    the temporary-directory counter is unchanged. *)
Theorem doDiff_missing_source args target source patch bq w :
  source <> "/dev/null"%string ->
  (forall t, fs_lookup (fs w) source <> Some (NDir t)) ->
  fs (snd (doDiff args target source patch bq w)) = fs w
  /\ tmpSeq (snd (doDiff args target source patch bq w)) = tmpSeq w
  /\ (forall ts, fst (doDiff_target target w) = Done ts ->
      fst (doDiff args target source patch bq w) = Failed (IOError source)).
Proof.
  intros Hn Hl.
  destruct (doDiff_target_frame target w) as (cs & tr & E1).
  destruct (doDiff_target target w) as [o w1] eqn:Et. cbn [snd] in E1. subst w1.
  destruct o as [[tc tsig]|e|].
  - assert (R : doDiff args target source patch bq w
                = (Failed (IOError source),
                   mkWorld (fs w) (console w ++ cs) ((trace w ++ tr) ++ [EvWalk source])
                     (tmpSeq w))).
    { unfold doDiff. rewrite (bind_Done _ _ _ _ _ Et). cbv beta iota.
      unfold doDiff_source. rewrite (proj2 (String.eqb_neq _ _) Hn).
      cbv [bind walk_at log_event get_node fail ret]. cbn [fs console trace tmpSeq].
      destruct (fs_lookup (fs w) source) as [[t|d]|] eqn:Es;
        [now destruct (Hl t)|reflexivity|reflexivity]. }
    rewrite R. cbn [fst snd fs tmpSeq]. repeat split; intros; reflexivity.
  - assert (R : doDiff args target source patch bq w
                = (Failed e, mkWorld (fs w) (console w ++ cs) (trace w ++ tr) (tmpSeq w)))
      by (unfold doDiff, bind at 1; now rewrite Et).
    rewrite R. cbn [fst snd fs tmpSeq]. repeat split; intros ts H; discriminate H.
  - assert (R : doDiff args target source patch bq w
                = (Died, mkWorld (fs w) (console w ++ cs) (trace w ++ tr) (tmpSeq w)))
      by (unfold doDiff, bind at 1; now rewrite Et).
    rewrite R. cbn [fst snd fs tmpSeq]. repeat split; intros ts H; discriminate H.
Qed.

Lemma keeps_tmp_frame {A} (m : M A) : frame m -> keeps_tmp m.
Proof. intros H w. destruct (H w) as (cs & tr & E). now rewrite E. Qed.

Lemma keeps_tmp_quiet {A} (m : M A) : quiet m -> keeps_tmp m.
Proof. intro H. now apply keeps_tmp_frame, quiet_frame. Qed.

Lemma keeps_tmp_bind {A B} (m : M A) (k : A -> M B) :
  keeps_tmp m -> (forall a, keeps_tmp (k a)) -> keeps_tmp (bind m k).
Proof.
  intros Hm Hk w. unfold bind. pose proof (Hm w) as H1.
  destruct (m w) as [[a|e|] w1]; cbn [snd] in *; auto. rewrite Hk. exact H1.
Qed.

Lemma keeps_tmp_put_node p n : keeps_tmp (put_node p n).
Proof. intro w. reflexivity. Qed.

Lemma keeps_tmp_append_file p b : keeps_tmp (append_file p b).
Proof.
  unfold append_file. apply keeps_tmp_bind; [apply keeps_tmp_quiet, quiet_get_node|].
  intros [[]|]; apply keeps_tmp_put_node.
Qed.

Lemma keeps_tmp_os_Create p : keeps_tmp (os_Create p).
Proof.
  unfold os_Create. apply keeps_tmp_bind; [apply keeps_tmp_quiet, quiet_log_event|intros _].
  apply keeps_tmp_bind; [apply keeps_tmp_quiet, quiet_get_node|].
  intros [[]|]; [apply keeps_tmp_quiet, quiet_fail|apply keeps_tmp_put_node..].
Qed.

Lemma keeps_tmp_WritePatch comp sig c source patch sigPath :
  keeps_tmp (WritePatch comp sig c source patch sigPath).
Proof.
  unfold WritePatch.
  apply keeps_tmp_bind; [apply keeps_tmp_quiet, read_container_files_quiet|intro files].
  destruct (diff_engine_c comp sig c files) as [p st].
  apply keeps_tmp_bind; [apply keeps_tmp_append_file|intros _].
  apply keeps_tmp_bind; [apply keeps_tmp_append_file|intros _].
  apply keeps_tmp_quiet, quiet_ret.
Qed.

Lemma keeps_tmp_must m : keeps_tmp m -> keeps_tmp (must m).
Proof.
  intros H w. unfold must. pose proof (H w) as H1.
  destruct (m w) as [[u|e|] w1]; cbn [snd] in *; exact H1.
Qed.

Lemma keeps_tmp_doApply patch target output inplace :
  keeps_tmp (doApply patch target output inplace).
Proof.
  unfold doApply. cbv zeta.
  apply keeps_tmp_bind.
  { destruct (String.eqb _ _); [destruct (negb inplace)|];
      first [apply keeps_tmp_frame, frame_comm_Dief | apply keeps_tmp_quiet, quiet_ret]. }
  intros _. apply keeps_tmp_bind; [apply keeps_tmp_frame, frame_say|intros _].
  apply keeps_tmp_bind; [apply keeps_tmp_quiet, read_file_quiet|intro d].
  unfold ApplyPatch.
  apply keeps_tmp_bind; [apply keeps_tmp_quiet, lift_quiet|intro p].
  apply keeps_tmp_bind; [apply keeps_tmp_quiet, quiet_get_node|intro n].
  apply keeps_tmp_bind; [apply keeps_tmp_quiet, lift_quiet|intro out].
  apply keeps_tmp_put_node.
Qed.

Lemma keeps_tmp_Done {A} (m : M A) w a w1 : keeps_tmp m -> m w = (Done a, w1) -> tmpSeq w1 = tmpSeq w.
Proof. intros H E. pose proof (H w) as H1. now rewrite E in H1. Qed.

(** X14: with the verify flag, a [doDiff] that completes has removed
    the temporary directory it created (named after the counter at the
    start), and has advanced the counter by one. *)
Theorem doDiff_verify_removes_tmp args target source patch bq w w' :
  diffArgs_verify args = true ->
  doDiff args target source patch bq w = (Done tt, w') ->
  fs_lookup (fs w')
    ("/tmp/pwr" ++ string_of_list_ascii [ascii_of_nat (48 + tmpSeq w)])%string = None
  /\ tmpSeq w' = S (tmpSeq w).
Proof.
  intros Hv E. unfold doDiff in E.
  apply bind_Done_inv in E as ([tc tsig] & w1 & E1 & E).
  pose proof (keeps_tmp_Done _ _ _ _ (keeps_tmp_frame _ (doDiff_target_frame target)) E1) as T1.
  apply bind_Done_inv in E as (sc & w2 & E2 & E).
  pose proof (keeps_tmp_Done _ _ _ _ (keeps_tmp_quiet _ (doDiff_source_quiet source)) E2) as T2.
  apply bind_Done_inv in E as (u3 & w3 & E3 & E).
  pose proof (keeps_tmp_Done _ _ _ _ (keeps_tmp_os_Create _) E3) as T3.
  apply bind_Done_inv in E as (u4 & w4 & E4 & E).
  pose proof (keeps_tmp_Done _ _ _ _ (keeps_tmp_os_Create _) E4) as T4.
  apply bind_Done_inv in E as (u5 & w5 & E5 & E).
  pose proof (keeps_tmp_Done _ _ _ _ (keeps_tmp_frame _ (frame_say _)) E5) as T5.
  apply bind_Done_inv in E as (st & w6 & E6 & E).
  pose proof (keeps_tmp_Done _ _ _ _ (keeps_tmp_WritePatch _ _ _ _ _ _) E6) as T6.
  rewrite Hv in E.
  apply bind_Done_inv in E as (tmp & w7 & E7 & E).
  unfold TempDir in E7. injection E7 as <- <-.
  apply bind_Done_inv in E as (u8 & w8 & E8 & E).
  pose proof (keeps_tmp_Done _ _ _ _ (keeps_tmp_must _ (keeps_tmp_doApply _ _ _ _)) E8) as T8.
  apply bind_Done_inv in E as (u9 & w9 & E9 & E).
  pose proof (keeps_tmp_Done _ _ _ _
                (keeps_tmp_must _ (keeps_tmp_frame _ (doVerify_frame _ _))) E9) as T9.
  unfold RemoveAll, bind, log_event in E. injection E as <-.
  cbn [set_fs fs tmpSeq] in *. rewrite T6, T5, T4, T3, T2, T1 in *.
  rewrite fs_lookup_remove, String.eqb_refl.
  split; [reflexivity|]. rewrite T9, T8. reflexivity.
Qed.




(** X16: when there is no regular file at the signature path,
    [doVerify] reports "Verifying", fails on opening the signature with an
    I/O error and hashes nothing. *)
Theorem doVerify_missing_signature signature output w :
  (forall d, fs_lookup (fs w) signature <> Some (NFile d)) ->
  doVerify signature output w
  = (Failed (IOError signature),
     mkWorld (fs w) (console w ++ [LOp "Verifying %s" output])
       (trace w ++ [EvOpen signature]) (tmpSeq w)).
Proof.
  intro Hs. unfold doVerify, ReadSignatureFile.
  cbv [bind comm_Opf say read_file log_event get_node fail ret]. cbv beta iota zeta.
  cbn [fs console trace tmpSeq].
  destruct (fs_lookup (fs w) signature) as [[|]|] eqn:E; try reflexivity.
  exfalso. eapply Hs. reflexivity.
Qed.







End Wharf.

(* ================================================================== *)
(** ** The statements at concrete inputs

    Block size 2, the rsync weak checksum, the identity as strong hash and
    the identity codec. *)

Lemma diff_apply_roundtrip_witness :
  apply_engine decompress_identity
    (fst (diff_engine 2 weak_rsync strong_identity compress_identity CompressionDefault
            (tree_signature 2 weak_rsync strong_identity sample_target) sample_source))
    sample_target
  = Ok sample_source.
Proof.
  apply diff_apply_roundtrip.
  - lia.
  - intros a b H. exact H.
  - intro x. reflexivity.
Defined.


Lemma doApply_inplace_guard_witness :
  (doApply decompress_identity "p" "old" "old/" false (sample_world [])
   = (Died, refused_world (sample_world []) (path_Clean "old"))
   /\ fs (refused_world (sample_world []) (path_Clean "old")) = fs (sample_world [])
   /\ trace (refused_world (sample_world []) (path_Clean "old")) = trace (sample_world []))
  /\ exists rest,
       trace (snd (doApply decompress_identity "p" "old" "old/" true (sample_world [])))
       = trace (sample_world []) ++ EvOpen "p" :: rest.
Proof.
  apply doApply_inplace_guard. vm_compute. reflexivity.
Defined.

Lemma diff_stats_cover_source_witness :
  ReusedBytes (snd (diff_engine 2 weak_rsync strong_identity compress_identity
                      CompressionDefault
                      (tree_signature 2 weak_rsync strong_identity sample_target)
                      sample_source))
  + FreshBytes (snd (diff_engine 2 weak_rsync strong_identity compress_identity
                       CompressionDefault
                       (tree_signature 2 weak_rsync strong_identity sample_target)
                       sample_source))
  = container_Size (tlc_Walk sample_source).
Proof.
  apply diff_stats_cover_source. lia.
Defined.

Lemma diff_null_trees_witness :
  patch_ops (fst (diff_engine 2 weak_rsync strong_identity compress_identity
                    CompressionDefault [] sample_source))
    = map (fun d => match d with
                    | [] => []
                    | _ :: _ => [Literal (compress_identity CompressionDefault d) (length d)]
                    end) (tree_files sample_source)
  /\ ReusedBytes (snd (diff_engine 2 weak_rsync strong_identity compress_identity
                         CompressionDefault [] sample_source)) = 0
  /\ apply_engine decompress_identity
       (fst (diff_engine 2 weak_rsync strong_identity compress_identity
               CompressionDefault [] sample_source)) []
     = Ok sample_source
  /\ diff_engine 2 weak_rsync strong_identity compress_identity CompressionDefault
       (tree_signature 2 weak_rsync strong_identity sample_target) []
     = (mkPatch CompressionDefault [] [], mkDiffStats 0 0)
  /\ apply_engine decompress_identity (mkPatch CompressionDefault [] []) sample_target = Ok []
  /\ (forall w, doDiff_target 2 weak_rsync strong_identity decompress_identity "/dev/null" w
                = (Done ([], []), w))
  /\ (forall w, doDiff_source "/dev/null" w = (Done [], w)).
Proof.
  apply diff_null_trees. intro x. reflexivity.
Defined.


Lemma signature_roundtrip_witness :
  decode_signature 2 decompress_identity
    (encode_signature compress_identity
       (sample_signature (tree_signature 2 weak_rsync strong_identity sample_target)))
  = Ok (sample_signature (tree_signature 2 weak_rsync strong_identity sample_target)).
Proof.
  apply signature_roundtrip.
  - intro x. reflexivity.
  - repeat split; vm_compute; first [reflexivity | discriminate].
Defined.



Lemma doApply_missing_patch_witness :
  doApply decompress_identity "p" "old" "out" false (sample_world [])
  = (Failed (IOError "p"),
     mkWorld (fs (sample_world [])) (console (sample_world []) ++ [LOp "Patching %s" "out"])
       (trace (sample_world []) ++ [EvOpen "p"]) (tmpSeq (sample_world []))).
Proof.
  apply (doApply_missing_patch decompress_identity "p" "old" "out" false (sample_world [])).
  - left. vm_compute. reflexivity.
  - intro d. vm_compute. intro H. discriminate H.
Defined.


Lemma doSign_no_tree_witness :
  doSign 2 weak_rsync strong_identity compress_identity "sig" "out.sig" (sample_world [])
  = (Failed (IOError "sig"),
     mkWorld (fs (sample_world []))
       (console (sample_world []) ++ [LOp "Creating signature for %s" "sig"])
       (trace (sample_world []) ++ [EvWalk "sig"]) (tmpSeq (sample_world [])))
  /\ sign 2 weak_rsync strong_identity compress_identity "sig" "out.sig" (sample_world [])
     = (Died,
        mkWorld (fs (sample_world []))
          (console (sample_world []) ++ [LOp "Creating signature for %s" "sig";
                                         LDie "%s" [AErr (IOError "sig")]])
          (trace (sample_world []) ++ [EvWalk "sig"]) (tmpSeq (sample_world []))).
Proof.
  apply doSign_no_tree. intro t. vm_compute. intro H. discriminate H.
Defined.

Lemma doSign_signature_is_dir_witness :
  doSign 2 weak_rsync strong_identity compress_identity "old" "new" (sample_world [])
  = (Failed (IOError "new"),
     mkWorld (fs (sample_world []))
       (console (sample_world []) ++ [LOp "Creating signature for %s" "old"])
       (trace (sample_world []) ++ [EvWalk "old"; EvCreate "new"])
       (tmpSeq (sample_world []))).
Proof.
  apply (doSign_signature_is_dir 2 weak_rsync strong_identity compress_identity
           "old" "new" (sample_world []) sample_target sample_damaged);
    vm_compute; reflexivity.
Defined.




Lemma doDiff_missing_target_witness :
  doDiff 2 weak_rsync strong_identity compress_identity decompress_identity
    (mkDiffArgs 1 false) "none" "new" "out.patch" 9 (sample_world [])
  = (Failed (IOError "none"),
     mkWorld (fs (sample_world [])) (console (sample_world []))
       (trace (sample_world []) ++ [EvLstat "none"]) (tmpSeq (sample_world []))).
Proof.
  apply doDiff_missing_target.
  - intro H. discriminate H.
  - vm_compute. reflexivity.
Defined.

Lemma doDiff_bad_signature_witness :
  doDiff 2 weak_rsync strong_identity compress_identity decompress_identity
    (mkDiffArgs 1 false) "sig" "new" "out.patch" 9 (sample_world [])
  = (Failed FormatError,
     mkWorld (fs (sample_world []))
       (console (sample_world []) ++ [LOp "Reading signature from %s" "sig"])
       (trace (sample_world []) ++ [EvLstat "sig"; EvOpen "sig"]) (tmpSeq (sample_world []))).
Proof.
  apply (doDiff_bad_signature 2 weak_rsync strong_identity compress_identity decompress_identity
           (mkDiffArgs 1 false) "sig" "new" "out.patch" 9 (sample_world []) []).
  - intro H. discriminate H.
  - vm_compute. reflexivity.
  - vm_compute. reflexivity.
Defined.

Lemma doDiff_missing_source_witness :
  fs (snd (doDiff 2 weak_rsync strong_identity compress_identity decompress_identity
             (mkDiffArgs 1 false) "old" "sig" "out.patch" 9 (sample_world [])))
  = fs (sample_world [])
  /\ tmpSeq (snd (doDiff 2 weak_rsync strong_identity compress_identity decompress_identity
                    (mkDiffArgs 1 false) "old" "sig" "out.patch" 9 (sample_world [])))
     = tmpSeq (sample_world [])
  /\ (forall ts,
        fst (doDiff_target 2 weak_rsync strong_identity decompress_identity "old"
               (sample_world [])) = Done ts ->
        fst (doDiff 2 weak_rsync strong_identity compress_identity decompress_identity
               (mkDiffArgs 1 false) "old" "sig" "out.patch" 9 (sample_world []))
        = Failed (IOError "sig")).
Proof.
  apply doDiff_missing_source.
  - intro H. discriminate H.
  - intro t. vm_compute. intro H. discriminate H.
Defined.

Lemma doDiff_verify_removes_tmp_witness :
  fs_lookup (fs (snd (doDiff 2 weak_rsync strong_identity compress_identity decompress_identity
                        (mkDiffArgs 1 true) "old" "new" "out.patch" 9 (sample_world []))))
    ("/tmp/pwr" ++ string_of_list_ascii [ascii_of_nat (48 + tmpSeq (sample_world []))])%string
  = None
  /\ tmpSeq (snd (doDiff 2 weak_rsync strong_identity compress_identity decompress_identity
                    (mkDiffArgs 1 true) "old" "new" "out.patch" 9 (sample_world [])))
     = S (tmpSeq (sample_world [])).
Proof.
  apply (doDiff_verify_removes_tmp 2 weak_rsync strong_identity compress_identity
           decompress_identity (mkDiffArgs 1 true) "old" "new" "out.patch" 9 (sample_world [])).
  - reflexivity.
  - vm_compute. reflexivity.
Defined.


Lemma doVerify_missing_signature_witness :
  doVerify 2 weak_rsync strong_identity decompress_identity "none" "old" (sample_world [])
  = (Failed (IOError "none"),
     mkWorld (fs (sample_world [])) (console (sample_world []) ++ [LOp "Verifying %s" "old"])
       (trace (sample_world []) ++ [EvOpen "none"]) (tmpSeq (sample_world []))).
Proof.
  apply doVerify_missing_signature. intro d. vm_compute. intro H. discriminate H.
Defined.



